(** * Airline-aware shortest flight paths: rule table, route graph, search

    A shallow embedding of [airline_rules.py], [graph_builder.py],
    [dijkstra.py] and the row filtering of [data_loader.py], with the
    properties of the route-graph construction and of the two searches. *)

From Stdlib Require Import ZArith Lia.
From stdpp Require Import base list strings gmap fin_maps sorting.

Local Open Scope string_scope.
Local Open Scope list_scope.

(** ** Python values *)

(** A Python [float].  The finite values are taken as exact numbers (a [Z],
    read as a whole number of some fixed unit of length); rounding is outside
    the model.  The two infinities and NaN are kept, with the arithmetic and
    the comparisons Python gives them. *)
Inductive pyfloat : Type :=
  | Fin (x : Z)
  | PInf
  | NInf
  | NaN.

Global Instance pyfloat_eq_dec : EqDecision pyfloat.
Proof. solve_decision. Defined.

(** [a + b] *)
Definition fadd (a b : pyfloat) : pyfloat :=
  match a, b with
  | NaN, _ | _, NaN => NaN
  | PInf, NInf | NInf, PInf => NaN
  | PInf, _ | _, PInf => PInf
  | NInf, _ | _, NInf => NInf
  | Fin x, Fin y => Fin (x + y)
  end.

(** [a < b] *)
Definition flt (a b : pyfloat) : bool :=
  match a, b with
  | NaN, _ | _, NaN => false
  | Fin x, Fin y => (x <? y)%Z
  | NInf, NInf => false
  | NInf, _ => true
  | _, NInf => false
  | PInf, _ => false
  | Fin _, PInf => true
  end.

(** [a > b] *)
Definition fgt (a b : pyfloat) : bool := flt b a.

(** [a == b]: NaN is equal to nothing, not even to itself. *)
Definition feq (a b : pyfloat) : bool :=
  match a, b with
  | NaN, _ | _, NaN => false
  | Fin x, Fin y => (x =? y)%Z
  | PInf, PInf => true
  | NInf, NInf => true
  | _, _ => false
  end.

(** [math.isfinite]: a known, finite number. *)
Definition is_finite (a : pyfloat) : bool :=
  match a with Fin _ => true | _ => false end.

(** Exceptions the embedded code can raise. *)
Inductive exn : Type :=
  | ValueError (msg : string)
  | KeyError
  | IndexError
  | TypeError.

(** Outcome of running a piece of code: a value, a raised exception, or the
    step budget of a loop used up before the loop ended. *)
Inductive res (A : Type) : Type :=
  | Ok (a : A)
  | Raise (e : exn)
  | OutOfFuel.
Arguments Ok {A} a.
Arguments Raise {A} e.
Arguments OutOfFuel {A}.

Global Instance res_bind : MBind res := fun A B k m =>
  match m with
  | Ok a => k a
  | Raise e => Raise e
  | OutOfFuel => OutOfFuel
  end.

(** [l[i]] on a Python list, for a non-negative index. *)
Definition list_get {A : Type} (l : list A) (i : nat) : res A :=
  match l !! i with
  | Some a => Ok a
  | None => Raise IndexError
  end.

(** [l[i] = x] on a Python list, for a non-negative index. *)
Definition list_set {A : Type} (l : list A) (i : nat) (x : A) : res (list A) :=
  if decide (i < length l) then Ok (<[i := x]> l) else Raise IndexError.

(** [d[k]] on a Python dict. *)
Definition dict_get `{Countable K} {A : Type} (d : gmap K A) (k : K) : res A :=
  match d !! k with
  | Some a => Ok a
  | None => Raise KeyError
  end.

(** ** airline_rules.py *)

Module Rules.

Definition AIRLINE_HUBS : list (string * string) :=
  [ ("Qatar Airways", "Doha");
    ("Emirates", "Dubai");
    ("Etihad", "Abu Dhabi") ].

Definition SUPPORTED_AIRLINES : list string := map fst AIRLINE_HUBS.

Definition AIRLINE_EXCLUDED_CITIES : list (string * list string) :=
  [ ("Qatar Airways",
      [ "Vancouver"; "Adelaide"; "Wellington"; "Perth"; "Brisbane";
        "Denver"; "Phoenix"; "Orlando"; "Detroit"; "Minneapolis";
        "Cleveland"; "St. Louis"; "Tampa"; "Baltimore"; "Pittsburgh";
        "Charlotte"; "Austin"; "San Diego"; "Portland"; "Sacramento";
        "Bogota"; "Lima"; "Santiago"; "Mexico City"; "Lagos" ]);
    ("Emirates",
      [ "Vancouver"; "Adelaide"; "Wellington"; "Perth"; "Brisbane";
        "Denver"; "Phoenix"; "Orlando"; "Detroit"; "Minneapolis";
        "Cleveland"; "St. Louis"; "Tampa"; "Baltimore"; "Pittsburgh";
        "Charlotte"; "Austin"; "San Diego"; "Portland"; "Sacramento";
        "Zanzibar"; "Kampala"; "Lusaka"; "Harare";
        "Bogota"; "Lima"; "Santiago"; "Mexico City" ]);
    ("Etihad",
      [ "Vancouver"; "Adelaide"; "Wellington"; "Perth"; "Brisbane";
        "Denver"; "Phoenix"; "Orlando"; "Detroit"; "Minneapolis";
        "Cleveland"; "St. Louis"; "Tampa"; "Baltimore"; "Pittsburgh";
        "Charlotte"; "Austin"; "San Diego"; "Portland"; "Sacramento";
        "Mexico City"; "Bogota"; "Lima"; "Santiago";
        "Rio de Janeiro"; "Sao Paulo"; "Buenos Aires";
        "Lagos"; "Accra"; "Cape Town"; "Zanzibar" ]) ].

(** [name in l] for a set or list of strings. *)
Definition mem (name : string) (l : list string) : bool :=
  existsb (String.eqb name) l.

(** [d.get(k)] on a dict written as its list of items. *)
Fixpoint assoc {A : Type} (k : string) (d : list (string * A)) : option A :=
  match d with
  | [] => None
  | (k', v) :: d' => if String.eqb k k' then Some v else assoc k d'
  end.

Definition airline_serves_city (airline city : string) : bool :=
  let hubs := ["Doha"; "Dubai"; "Abu Dhabi"] in
  if mem city hubs then true
  else
    let excluded := default [] (assoc airline AIRLINE_EXCLUDED_CITIES) in
    negb (mem city excluded).

Definition get_hub (airline : string) : res string :=
  match assoc airline AIRLINE_HUBS with
  | None => Raise (ValueError (String.append "Unknown airline: " airline))
  | Some h => Ok h
  end.

(** The set comprehension [{get_hub(a) for a in airlines}]: [get_hub] is
    called on the airlines in order, and the first call that fails ends the
    comprehension with its exception. *)
Fixpoint get_hubs_for_airlines (airlines : list string) : res (gset string) :=
  match airlines with
  | [] => Ok ∅
  | a :: rest =>
      h ← get_hub a;
      hs ← get_hubs_for_airlines rest;
      Ok ({[ h ]} ∪ hs)
  end.

Definition is_hub (city : string) (airlines : list string) : res bool :=
  hs ← get_hubs_for_airlines airlines; Ok (bool_decide (city ∈ hs)).

(** The exclusion set of an airline of the table ([[]] for any other name). *)
Definition excluded_of (airline : string) : list string :=
  default [] (assoc airline AIRLINE_EXCLUDED_CITIES).

Definition operates_route (airline origin dest : string) (cities : gset string)
  : res bool :=
  hub ← get_hub airline;
  if bool_decide (origin ∉ cities) || bool_decide (dest ∉ cities) then Ok false
  else if String.eqb origin hub then Ok (airline_serves_city airline dest)
  else if String.eqb dest hub then Ok (airline_serves_city airline origin)
  else Ok false.

(** The loop [for air in airlines] returns at the first airline that flies
    between [origin] and [dest]; [hubs] is not read. *)
Fixpoint get_route_airline (origin dest : string) (airlines : list string)
    (hubs : gset string) : res (option string) :=
  match airlines with
  | [] => Ok None
  | air :: rest =>
      h ← get_hub air;
      if String.eqb origin h && negb (String.eqb dest h)
         && airline_serves_city air dest then Ok (Some air)
      else if String.eqb dest h && negb (String.eqb origin h)
              && airline_serves_city air origin then Ok (Some air)
      else get_route_airline origin dest rest hubs
  end.

End Rules.

(** ** data_loader.py *)

Module DataLoader.

(** A row of the city table, once the cells are parsed: the two text columns
    are stripped strings, the numeric columns are floats, NaN where the cell
    was empty or not a number ([pd.to_numeric(..., errors="coerce")]). *)
Record Row : Type := mkRow {
  City : string;
  Country : string;
  Latitude : pyfloat;
  Longitude : pyfloat;
  Distance_to_Doha : pyfloat;
  Distance_to_Dubai : pyfloat;
  Distance_to_Abu_Dhabi : pyfloat
}.

Definition isna (a : pyfloat) : bool :=
  match a with NaN => true | _ => false end.

(** [df.dropna(subset=["City", "Latitude", "Longitude"])]; the City column
    holds strings after [astype(str)], so it is never missing. *)
Definition dropna (df : list Row) : list Row :=
  filter (λ r, isna (Latitude r) = false ∧ isna (Longitude r) = false) df.

(** [df.drop_duplicates(subset=["City", "Country"], keep="first")] *)
Fixpoint drop_duplicates_from (seen : list (string * string)) (df : list Row)
  : list Row :=
  match df with
  | [] => []
  | r :: rest =>
      if decide ((City r, Country r) ∈ seen) then drop_duplicates_from seen rest
      else r :: drop_duplicates_from ((City r, Country r) :: seen) rest
  end.

Definition drop_duplicates (df : list Row) : list Row :=
  drop_duplicates_from [] df.

(** The row filtering of [clean_airport_data], on parsed rows. *)
Definition clean_airport_data (df : list Row) : list Row :=
  drop_duplicates (dropna df).

End DataLoader.

(** ** graph_builder.py *)

(** [for x in l: b = f(b, x)], stopping at the first exception. *)
Fixpoint foldM {A B : Type} (f : B → A → res B) (b : B) (l : list A) : res B :=
  match l with
  | [] => Ok b
  | x :: l' => b' ← f b x; foldM f b' l'
  end.

Module GraphBuilder.
Import DataLoader.

(** [(neighbor_index, weight_km, airline_or_None)] *)
Definition Edge : Type := nat * pyfloat * option string.

Definition enumerate {A : Type} (l : list A) : list (nat * A) := imap pair l.

(** [{c: i for i, c in enumerate(cities)}]: a later row takes the key of an
    earlier row of the same name. *)
Definition city_to_index_of (cities : list string) : gmap string nat :=
  foldl (λ m ic, <[ic.2 := ic.1]> m) ∅ (enumerate cities).

(** [{i: c for i, c in enumerate(cities)}] *)
Definition index_to_city_of (cities : list string) : gmap nat string :=
  foldl (λ m ic, <[ic.1 := ic.2]> m) ∅ (enumerate cities).

(** [df[df["City"] == a].iloc[0]] *)
Definition first_row (df : list Row) (a : string) : res Row :=
  match filter (λ r, City r = a) df with
  | r :: _ => Ok r
  | [] => Raise IndexError
  end.

(** The local function [dist] of [build_graph]. *)
Definition dist (df : list Row) (a b : string) : res pyfloat :=
  if String.eqb a b then Ok (Fin 0)
  else
    row_a ← first_row df a;
    row_b ← first_row df b;
    if String.eqb a "Doha" then Ok (Distance_to_Doha row_b)
    else if String.eqb a "Dubai" then Ok (Distance_to_Dubai row_b)
    else if String.eqb a "Abu Dhabi" then Ok (Distance_to_Abu_Dhabi row_b)
    else if String.eqb b "Doha" then Ok (Distance_to_Doha row_a)
    else if String.eqb b "Dubai" then Ok (Distance_to_Dubai row_a)
    else if String.eqb b "Abu Dhabi" then Ok (Distance_to_Abu_Dhabi row_a)
    else Ok PInf.

(** [adjacency_list[i].append(e)] *)
Definition append_edge (adj : list (list Edge)) (i : nat) (e : Edge)
  : res (list (list Edge)) :=
  row ← list_get adj i;
  Ok (<[i := row ++ [e]]> adj).

(** Body of the loop [for c in cities]. *)
Definition city_step (df : list Row) (city_to_index : gmap string nat)
    (airline hub : string) (hi : nat)
    (adj : list (list Edge)) (c : string) : res (list (list Edge)) :=
  if String.eqb c hub then Ok adj
  else if negb (Rules.airline_serves_city airline c) then Ok adj
  else
    ci ← dict_get city_to_index c;
    d ← dist df hub c;
    if feq d PInf then Ok adj
    else
      adj1 ← append_edge adj hi (ci, d, Some airline);
      append_edge adj1 ci (hi, d, Some airline).

(** Body of the loop [for airline in airlines]. *)
Definition airline_step (df : list Row) (cities : list string)
    (city_to_index : gmap string nat)
    (adj : list (list Edge)) (airline : string) : res (list (list Edge)) :=
  hub ← Rules.get_hub airline;
  match city_to_index !! hub with
  | None => Ok adj
  | Some hi => foldM (city_step df city_to_index airline hub hi) adj cities
  end.

(** The first airline that fails [a not in SUPPORTED_AIRLINES], if any. *)
Definition first_unsupported (airlines : list string) : option string :=
  List.find (λ a, negb (Rules.mem a Rules.SUPPORTED_AIRLINES)) airlines.

(** [build_graph]; the message of the [ValueError] is kept up to the name of
    the airline (the rest prints a frozenset, whose order is not fixed). *)
Definition build_graph (df : list Row) (airlines : list string)
  : res (list (list Edge) * gmap string nat * gmap nat string * list Row) :=
  match first_unsupported airlines with
  | Some a => Raise (ValueError (String.append "Unsupported airline: " a))
  | None =>
      let cities := map City df in
      let city_to_index := city_to_index_of cities in
      let index_to_city := index_to_city_of cities in
      let n := length cities in
      let adjacency_list := replicate n [] in
      adj ← foldM (airline_step df cities city_to_index) adjacency_list airlines;
      Ok (adj, city_to_index, index_to_city, df)
  end.

End GraphBuilder.

(** ** dijkstra.py *)

Module Dijkstra.
Import GraphBuilder.

(** Order of the heap items, Python's [<] on [(float, int)] tuples: the
    first components decide unless they are equal. *)
Definition tuple_lt (x y : pyfloat * nat) : bool :=
  if feq x.1 y.1 then (x.2 <? y.2)%nat else flt x.1 y.1.

(** [heapq] is taken by its contract: the heap is kept as the list of its
    items in increasing order, [heappush] inserts in place and [heappop]
    takes the head.  On the items the searches push (no NaN) the order is
    total, so the item popped does not depend on the layout of the heap. *)
Fixpoint heappush (h : list (pyfloat * nat)) (x : pyfloat * nat)
  : list (pyfloat * nat) :=
  match h with
  | [] => [x]
  | y :: h' => if tuple_lt x y then x :: y :: h' else y :: heappush h' x
  end.

Section Core.
(** The two searches differ in what [prev] records for a node: the
    predecessor with the airline of the edge, or the predecessor alone. *)
Context {P : Type} (record : nat → option string → P).

Record state : Type := mkState {
  dist : list pyfloat;
  prev : list (option P);
  heap : list (pyfloat * nat)
}.

(** Body of [for v, w, airline in adjacency_list[u]]. *)
Definition relax (d : pyfloat) (u : nat) (st : state) (e : Edge) : res state :=
  let '(v, w, airline) := e in
  let new_d := fadd d w in
  dv ← list_get (dist st) v;
  if flt new_d dv then
    dist' ← list_set (dist st) v new_d;
    prev' ← list_set (prev st) v (Some (record u airline));
    Ok (mkState dist' prev' (heappush (heap st) (new_d, v)))
  else Ok st.

(** [while heap: ...], at most [fuel] iterations. *)
Fixpoint search_loop (fuel : nat) (adjacency_list : list (list Edge))
    (dst : nat) (st : state) : res state :=
  match fuel with
  | 0 => OutOfFuel
  | S fuel' =>
      match heap st with
      | [] => Ok st
      | (d, u) :: heap' =>
          let st1 := mkState (dist st) (prev st) heap' in
          du ← list_get (dist st) u;
          if fgt d du then search_loop fuel' adjacency_list dst st1
          else if (u =? dst)%nat then Ok st1
          else
            edges ← list_get adjacency_list u;
            st2 ← foldM (relax d u) st1 edges;
            search_loop fuel' adjacency_list dst st2
      end
  end.

(** From the start of the function to the end of the [while heap] loop. *)
Definition search (fuel : nat) (adjacency_list : list (list Edge))
    (src dst : nat) : res state :=
  let n := length adjacency_list in
  dist0 ← list_set (replicate n PInf) src (Fin 0);
  search_loop fuel adjacency_list dst
    (mkState dist0 (replicate n None) [(Fin 0, src)]).
End Core.

Arguments state : clear implicits.
Arguments mkState {P} _ _ _.

(** [[index_to_city[i] for i in path_indices]] *)
Fixpoint path_cities_of (index_to_city : gmap nat string) (path_indices : list nat)
  : res (list string) :=
  match path_indices with
  | [] => Ok []
  | i :: rest =>
      c ← dict_get index_to_city i;
      cs ← path_cities_of index_to_city rest;
      Ok (c :: cs)
  end.

(** The loop [while cur is not None] of [dijkstra_airline_aware], at most
    [fuel] iterations; [acc] is [path_indices]. *)
Fixpoint walk_back (fuel : nat) (prev : list (option (nat * option string)))
    (cur : nat) (acc : list nat) : res (list nat) :=
  match fuel with
  | 0 => OutOfFuel
  | S fuel' =>
      let acc' := acc ++ [cur] in
      pr ← list_get prev cur;
      match pr with
      | None => Ok acc'
      | Some (p, _) => walk_back fuel' prev p acc'
      end
  end.

(** The loop [for k in range(len(path_indices) - 1)]; unpacking a [None]
    predecessor is a [TypeError]. *)
Fixpoint segments_of (prev : list (option (nat * option string)))
    (index_to_city : gmap nat string) (path_indices : list nat)
  : res (list (string * string * option string)) :=
  match path_indices with
  | u :: ((v :: _) as rest) =>
      pv ← list_get prev v;
      match pv with
      | None => Raise TypeError
      | Some (_, airline) =>
          cu ← dict_get index_to_city u;
          cv ← dict_get index_to_city v;
          segs ← segments_of prev index_to_city rest;
          Ok ((cu, cv, airline) :: segs)
      end
  | _ => Ok []
  end.

Definition PathResult : Type :=
  pyfloat * list string * list (string * string * option string).

Definition dijkstra_airline_aware (fuel : nat)
    (adjacency_list : list (list Edge))
    (city_to_index : gmap string nat) (index_to_city : gmap nat string)
    (source dest : string) (airlines : list string) : res (option PathResult) :=
  match city_to_index !! source, city_to_index !! dest with
  | Some src, Some dst =>
      st ← search (λ u airline, (u, airline)) fuel adjacency_list src dst;
      d_dst ← list_get (dist st) dst;
      if feq d_dst PInf then Ok None
      else
        visited ← walk_back fuel (prev st) dst [];
        let path_indices := reverse visited in
        path_cities ← path_cities_of index_to_city path_indices;
        segments ← segments_of (prev st) index_to_city path_indices;
        Ok (Some (d_dst, path_cities, segments))
  | _, _ => Ok None
  end.

(** The loop [while cur is not None] of [dijkstra_standard]. *)
Fixpoint walk_back_standard (fuel : nat) (prev : list (option nat))
    (cur : option nat) (acc : list nat) : res (list nat) :=
  match fuel with
  | 0 => OutOfFuel
  | S fuel' =>
      match cur with
      | None => Ok acc
      | Some c =>
          nxt ← list_get prev c;
          walk_back_standard fuel' prev nxt (acc ++ [c])
      end
  end.

Definition dijkstra_standard (fuel : nat)
    (adjacency_list : list (list Edge))
    (city_to_index : gmap string nat) (index_to_city : gmap nat string)
    (source dest : string) : res (option (pyfloat * list string)) :=
  match city_to_index !! source, city_to_index !! dest with
  | Some src, Some dst =>
      st ← search (λ u _, u) fuel adjacency_list src dst;
      d_dst ← list_get (dist st) dst;
      if feq d_dst PInf then Ok None
      else
        visited ← walk_back_standard fuel (prev st) (Some dst) [];
        let path_indices := reverse visited in
        path_cities ← path_cities_of index_to_city path_indices;
        Ok (Some (d_dst, path_cities))
  | _, _ => Ok None
  end.

End Dijkstra.


(** ** web_map.py and visualization.py *)

Module WebMap.
Import DataLoader.

(** [_coords]: the coordinates of the first row named [city]. *)
Definition _coords (df : list Row) (city : string) : res (pyfloat * pyfloat) :=
  match filter (λ r, City r = city) df with
  | [] => Raise (ValueError (String.append "City not found in DataFrame: " city))
  | r :: _ => Ok (Latitude r, Longitude r)
  end.

End WebMap.

Module Visualization.
Import DataLoader.

(** [_get_coords]: as [_coords], but a city that is not in the table is put
    at [(0.0, 0.0)]. *)
Definition _get_coords (df : list Row) (city : string) : pyfloat * pyfloat :=
  match filter (λ r, City r = city) df with
  | [] => (Fin 0, Fin 0)
  | r :: _ => (Latitude r, Longitude r)
  end.

End Visualization.

(** * Properties *)

(** ** The rule table *)

Module RulesFacts.
Import Rules.

(** The cities that every airline excludes. *)
Definition shared_excluded : list string :=
  [ "Vancouver"; "Adelaide"; "Wellington"; "Perth"; "Brisbane";
    "Denver"; "Phoenix"; "Orlando"; "Detroit"; "Minneapolis";
    "Cleveland"; "St. Louis"; "Tampa"; "Baltimore"; "Pittsburgh";
    "Charlotte"; "Austin"; "San Diego"; "Portland"; "Sacramento";
    "Bogota"; "Lima"; "Santiago"; "Mexico City" ].

(** [city] is in the exclusion sets of both [a] and [b]. *)
Definition excluded_by_both (a b city : string) : bool :=
  mem city (excluded_of a) && mem city (excluded_of b).

(** The exclusion sets of any two different airlines of the table have no
    city in common. *)
Definition exclusions_pairwise_disjoint : Prop :=
  ∀ a b city, mem a SUPPORTED_AIRLINES = true → mem b SUPPORTED_AIRLINES = true →
    a ≠ b → excluded_by_both a b city = false.

(** The overlaps there are: the shared cities, and two more cities that two
    of the three airlines exclude. *)
Definition overlap (a b city : string) : bool :=
  mem city shared_excluded
  || (String.eqb city "Lagos"
      && mem a ["Qatar Airways"; "Etihad"] && mem b ["Qatar Airways"; "Etihad"])
  || (String.eqb city "Zanzibar"
      && mem a ["Emirates"; "Etihad"] && mem b ["Emirates"; "Etihad"]).

Lemma mem_true_iff name l : mem name l = true ↔ name ∈ l.
Proof.
  unfold mem. rewrite existsb_exists. split.
  - intros (x & Hx & Heq). apply String.eqb_eq in Heq. subst.
    by apply list_elem_of_In.
  - intros Hin. exists name. split; [by apply list_elem_of_In|].
    apply String.eqb_refl.
Qed.

Lemma mem_false_iff name l : mem name l = false ↔ name ∉ l.
Proof.
  rewrite <- mem_true_iff. destruct (mem name l); split; congruence.
Qed.

Lemma supported_cases a :
  mem a SUPPORTED_AIRLINES = true →
  a = "Qatar Airways" ∨ a = "Emirates" ∨ a = "Etihad".
Proof.
  rewrite mem_true_iff. unfold SUPPORTED_AIRLINES. simpl.
  rewrite !elem_of_cons, elem_of_nil. tauto.
Qed.

Lemma assoc_hubs_unsupported a :
  mem a SUPPORTED_AIRLINES = false → assoc a AIRLINE_HUBS = None.
Proof.
  unfold SUPPORTED_AIRLINES, mem. simpl.
  rewrite !orb_false_iff. intros (-> & -> & -> & _). reflexivity.
Qed.

Lemma assoc_excluded_unsupported a :
  mem a SUPPORTED_AIRLINES = false → assoc a AIRLINE_EXCLUDED_CITIES = None.
Proof.
  unfold SUPPORTED_AIRLINES, mem. simpl.
  rewrite !orb_false_iff. intros (-> & -> & -> & _). reflexivity.
Qed.

Lemma get_hub_supported a :
  mem a SUPPORTED_AIRLINES = true →
  ∃ h, get_hub a = Ok h ∧ h ∈ ["Doha"; "Dubai"; "Abu Dhabi"].
Proof.
  intros [-> | [-> | ->]]%supported_cases; eexists; (split; [reflexivity|]);
    set_solver.
Qed.

Lemma get_hub_Ok_supported a h :
  get_hub a = Ok h → mem a SUPPORTED_AIRLINES = true.
Proof.
  destruct (mem a SUPPORTED_AIRLINES) eqn:E; [done|].
  unfold get_hub. by rewrite assoc_hubs_unsupported.
Qed.

(** A test that holds of a whole list holds of each of its elements. *)
Lemma forallb_elem_of (f : string → bool) l x :
  forallb f l = true → x ∈ l → f x = true.
Proof.
  rewrite forallb_forall. intros H Hin. apply H. by apply list_elem_of_In.
Qed.

(** C5, as stated, fails: Vancouver is excluded by Qatar Airways and by
    Emirates (and by Etihad). *)
Lemma C5_exclusions_not_disjoint : ¬ exclusions_pairwise_disjoint.
Proof.
  intros H.
  specialize (H "Qatar Airways" "Emirates" "Vancouver" eq_refl eq_refl).
  assert (Hne : "Qatar Airways" ≠ "Emirates") by discriminate.
  specialize (H Hne). vm_compute in H. discriminate.
Qed.

(** C5, amended: two different airlines of the table exclude a common city
    exactly when it is one of the twenty-four cities all three exclude, or
    Lagos (Qatar Airways and Etihad), or Zanzibar (Emirates and Etihad). *)
Theorem C5_exclusions_overlap (a b city : string) :
  mem a SUPPORTED_AIRLINES = true → mem b SUPPORTED_AIRLINES = true → a ≠ b →
  excluded_by_both a b city = overlap a b city.
Proof.
  intros Ha Hb Hab.
  assert (Hcase : city ∈ excluded_of "Etihad" ++ excluded_of "Emirates"
                  ∨ mem city (excluded_of "Etihad" ++ excluded_of "Emirates") = false).
  { destruct (mem city (excluded_of "Etihad" ++ excluded_of "Emirates")) eqn:E;
      [left; by apply mem_true_iff | by right]. }
  destruct Hcase as [Hin | Hout].
  - assert (Hall : forallb (λ c,
        forallb (λ a', forallb (λ b',
          if String.eqb a' b' then true
          else Bool.eqb (excluded_by_both a' b' c) (overlap a' b' c))
          SUPPORTED_AIRLINES) SUPPORTED_AIRLINES)
        (excluded_of "Etihad" ++ excluded_of "Emirates") = true)
      by (vm_compute; reflexivity).
    pose proof (forallb_elem_of _ _ _ Hall Hin) as H1. cbv beta in H1.
    apply mem_true_iff in Ha, Hb.
    pose proof (forallb_elem_of _ _ _ H1 Ha) as H2. cbv beta in H2.
    pose proof (forallb_elem_of _ _ _ H2 Hb) as H3. cbv beta in H3.
    destruct (String.eqb_spec a b) as [|_]; [done|].
    by apply Bool.eqb_prop in H3.
  - assert (Hsub : ∀ l, forallb (λ c, mem c (excluded_of "Etihad" ++ excluded_of "Emirates")) l = true →
        mem city l = false).
    { intros l Hl. apply mem_false_iff. intros Hc.
      pose proof (forallb_elem_of _ _ _ Hl Hc) as H. cbv beta in H. congruence. }
    assert (H1 : mem city (excluded_of "Qatar Airways") = false)
      by (apply Hsub; vm_compute; reflexivity).
    assert (H2 : mem city (excluded_of "Emirates") = false)
      by (apply Hsub; vm_compute; reflexivity).
    assert (H3 : mem city (excluded_of "Etihad") = false)
      by (apply Hsub; vm_compute; reflexivity).
    assert (H4 : mem city shared_excluded = false)
      by (apply Hsub; vm_compute; reflexivity).
    assert (H5 : String.eqb city "Lagos" = false).
    { specialize (Hsub ["Lagos"] eq_refl). simpl in Hsub.
      by rewrite orb_false_r in Hsub. }
    assert (H6 : String.eqb city "Zanzibar" = false).
    { specialize (Hsub ["Zanzibar"] eq_refl). simpl in Hsub.
      by rewrite orb_false_r in Hsub. }
    unfold overlap, excluded_by_both. rewrite H4, H5, H6. simpl.
    apply supported_cases in Ha, Hb.
    destruct Ha as [-> | [-> | ->]]; rewrite ?H1, ?H2, ?H3; reflexivity.
Qed.

(** The amended C5 at Lagos, which Qatar Airways and Etihad both exclude. *)
Lemma C5_exclusions_overlap_witness :
  excluded_by_both "Qatar Airways" "Etihad" "Lagos" = true.
Proof.
  rewrite (C5_exclusions_overlap "Qatar Airways" "Etihad" "Lagos");
    [reflexivity | reflexivity | reflexivity | discriminate].
Defined.

(** C7, as stated, fails: [airline_serves_city] answers [True] for an
    airline that is not in the table. *)
Lemma C7_serves_unknown_airline :
  mem "Lufthansa" SUPPORTED_AIRLINES = false ∧
  airline_serves_city "Lufthansa" "London" = true.
Proof. split; reflexivity. Qed.

Lemma get_hubs_raise a l :
  mem a SUPPORTED_AIRLINES = false → a ∈ l →
  ∃ e, get_hubs_for_airlines l = Raise e.
Proof.
  intros Ha. induction l as [|b l IH]; intros Hin.
  - by apply elem_of_nil in Hin.
  - apply elem_of_cons in Hin as [<- | Hin].
    + simpl. unfold get_hub. rewrite (assoc_hubs_unsupported _ Ha).
      eexists. reflexivity.
    + destruct (IH Hin) as [e He]. simpl. rewrite He.
      unfold get_hub. destruct (assoc b AIRLINE_HUBS); simpl; eauto.
Qed.

(** C7, amended: for an airline outside the table, the hub lookup, the
    hub-set lookup (of any list that holds it) and [is_hub] raise, while
    [airline_serves_city] raises nothing and answers [True] for every
    city. *)
Theorem C7_unknown_airline (a : string) :
  mem a SUPPORTED_AIRLINES = false →
  get_hub a = Raise (ValueError (String.append "Unknown airline: " a)) ∧
  (∀ l, a ∈ l → ∃ e, get_hubs_for_airlines l = Raise e) ∧
  (∀ l city, a ∈ l → ∃ e, is_hub city l = Raise e) ∧
  (∀ city, airline_serves_city a city = true).
Proof.
  intros Ha. repeat split.
  - unfold get_hub. by rewrite assoc_hubs_unsupported.
  - intros l Hin. by eapply get_hubs_raise.
  - intros l city Hin. destruct (get_hubs_raise a l Ha Hin) as [e He].
    unfold is_hub. rewrite He. eauto.
  - intros city. unfold airline_serves_city.
    rewrite (assoc_excluded_unsupported _ Ha). simpl.
    by destruct (_ || _).
Qed.

Lemma C7_unknown_airline_witness :
  get_hub "Lufthansa" = Raise (ValueError "Unknown airline: Lufthansa") ∧
  airline_serves_city "Lufthansa" "Vancouver" = true.
Proof.
  destruct (C7_unknown_airline "Lufthansa" eq_refl) as (H1 & _ & _ & H4).
  split; [exact H1 | apply H4].
Defined.


(** *** Routes of an airline *)

(** The test [a in SUPPORTED_AIRLINES] on every airline of a list. *)
Definition all_supported (airlines : list string) : bool :=
  forallb (λ a, mem a SUPPORTED_AIRLINES) airlines.

(** [operates_route] returned [True]. *)
Definition flies (cities : gset string) (origin dest airline : string) : bool :=
  match operates_route airline origin dest cities with
  | Ok true => true
  | _ => false
  end.

Lemma operates_route_Ok_true a o d cities :
  operates_route a o d cities = Ok true ↔
  ∃ hub, get_hub a = Ok hub ∧ o ∈ cities ∧ d ∈ cities ∧
    ((o = hub ∧ airline_serves_city a d = true) ∨
     (d = hub ∧ airline_serves_city a o = true)).
Proof.
  unfold operates_route, get_hub.
  destruct (assoc a AIRLINE_HUBS) as [hub|]; simpl.
  2:{ split; [done|]. by intros (? & ? & _). }
  destruct (decide (o ∈ cities)) as [Ho|Ho]; cycle 1.
  { rewrite (bool_decide_eq_true_2 _ Ho). simpl. split; [done|].
    intros (? & _ & ? & _). done. }
  rewrite (bool_decide_eq_false_2 (o ∉ cities)) by (by intros ?). simpl.
  destruct (decide (d ∈ cities)) as [Hd|Hd]; cycle 1.
  { rewrite (bool_decide_eq_true_2 _ Hd). split; [done|].
    intros (? & _ & _ & ? & _). done. }
  rewrite (bool_decide_eq_false_2 (d ∉ cities)) by (by intros ?).
  destruct (String.eqb_spec o hub) as [->|Ho'].
  { split.
    - intros [= Hs]. exists hub. repeat split; auto.
    - intros (h & [= <-] & _ & _ & [[_ Hs]|[-> Hs]]); by rewrite Hs. }
  destruct (String.eqb_spec d hub) as [->|Hd'].
  { split.
    - intros [= Hs]. exists hub. repeat split; auto.
    - intros (h & [= <-] & _ & _ & [[? _]|[_ Hs]]); [done|by rewrite Hs]. }
  split; [done|]. intros (h & [= <-] & _ & _ & [[? _]|[? _]]); done.
Qed.

(** X1: [operates_route] looks the hub up before anything else: it raises
    exactly for an airline that is not in the table, whatever the cities. *)
Theorem operates_route_raises_iff a o d cities :
  (∃ e, operates_route a o d cities = Raise e) ↔
  mem a SUPPORTED_AIRLINES = false.
Proof.
  split.
  - intros [e He]. destruct (mem a SUPPORTED_AIRLINES) eqn:Hs; [|done].
    destruct (get_hub_supported a Hs) as (h & Hh & _).
    unfold operates_route in He. rewrite Hh in He. simpl in He.
    by repeat case_match.
  - intros Hs. unfold operates_route, get_hub.
    rewrite (assoc_hubs_unsupported a Hs). simpl. eauto.
Qed.

(** X2: An airline flies a route in both directions or in none. *)
Theorem operates_route_symmetric a o d cities :
  operates_route a o d cities = operates_route a d o cities.
Proof.
  unfold operates_route. destruct (get_hub a) as [hub| |]; simpl; try done.
  rewrite (orb_comm (bool_decide (o ∉ cities))).
  destruct (_ || _); [done|].
  destruct (String.eqb_spec o hub) as [->|Ho], (String.eqb_spec d hub) as [->|Hd];
    done.
Qed.

Lemma all_supported_cons a l :
  all_supported (a :: l) = true ↔
  mem a SUPPORTED_AIRLINES = true ∧ all_supported l = true.
Proof. unfold all_supported. simpl. by rewrite andb_true_iff. Qed.

Lemma get_route_airline_find o d airlines hubs cities :
  all_supported airlines = true → o ∈ cities → d ∈ cities → o ≠ d →
  get_route_airline o d airlines hubs = Ok (List.find (flies cities o d) airlines).
Proof.
  intros Hsup Ho Hd Hne. induction airlines as [|a l IH]; [done|].
  apply all_supported_cons in Hsup as [Ha Hl]. specialize (IH Hl).
  destruct (get_hub_supported a Ha) as (h & Hh & _).
  assert (Hf : flies cities o d a
               = (String.eqb o h && airline_serves_city a d)
                 || (String.eqb d h && airline_serves_city a o)).
  { unfold flies, operates_route. rewrite Hh. simpl.
    rewrite (bool_decide_eq_false_2 (o ∉ cities)) by (by intros ?).
    rewrite (bool_decide_eq_false_2 (d ∉ cities)) by (by intros ?). simpl.
    destruct (String.eqb_spec o h) as [->|Ho'],
      (String.eqb_spec d h) as [->|Hd']; simpl; try done;
      by destruct (airline_serves_city a _). }
  simpl. rewrite Hf, Hh. simpl.
  destruct (String.eqb_spec o h) as [->|Ho'], (String.eqb_spec d h) as [->|Hd'];
    simpl; try done.
  - destruct (airline_serves_city a d); simpl; [done|apply IH].
  - destruct (airline_serves_city a o); simpl; [done|apply IH].
Qed.

(** X3: Between two different cities of [cities], with airlines of the table,
    [get_route_airline] returns the first airline of the list for which
    [operates_route] is true, and [None] if there is none. *)
Theorem get_route_airline_first_operator o d airlines hubs cities :
  all_supported airlines = true → o ∈ cities → d ∈ cities → o ≠ d →
  get_route_airline o d airlines hubs = Ok (List.find (flies cities o d) airlines).
Proof. apply get_route_airline_find. Qed.

Lemma get_route_airline_first_operator_witness :
  get_route_airline "London" "Doha" ["Emirates"; "Qatar Airways"] ∅
  = Ok (List.find (flies {[ "London"; "Doha" ]} "London" "Doha")
          ["Emirates"; "Qatar Airways"]).
Proof.
  apply get_route_airline_first_operator.
  - reflexivity.
  - set_solver.
  - set_solver.
  - discriminate.
Defined.

Lemma get_hubs_elem airlines hs city :
  get_hubs_for_airlines airlines = Ok hs →
  city ∈ hs ↔ ∃ a, a ∈ airlines ∧ get_hub a = Ok city.
Proof.
  revert hs. induction airlines as [|a l IH]; intros hs; simpl.
  - intros [= <-]. split; [set_solver|]. intros (a & Ha & _).
    by apply elem_of_nil in Ha.
  - unfold mbind, res_bind.
    destruct (get_hub a) as [h| |] eqn:Hh; try done.
    destruct (get_hubs_for_airlines l) as [hs'| |]; try done.
    intros [= <-]. rewrite elem_of_union, elem_of_singleton, (IH hs' eq_refl).
    split.
    + intros [->|(b & Hb & Hhb)]; [exists a|exists b]; (split; [|done]);
        [by left|by right].
    + intros (b & [->|Hb]%elem_of_cons & Hhb); [left; congruence|right; eauto].
Qed.

Lemma get_hubs_supported airlines :
  all_supported airlines = true → ∃ hs, get_hubs_for_airlines airlines = Ok hs.
Proof.
  induction airlines as [|a l IH]; [by exists ∅|].
  intros [Ha Hl]%all_supported_cons.
  destruct (get_hub_supported a Ha) as (h & Hh & _).
  destruct (IH Hl) as [hs Hhs]. simpl. rewrite Hh, Hhs. simpl. eauto.
Qed.

(** X4: For airlines of the table, [is_hub] answers, and answers [True] exactly
    for the hub of one of the airlines given. *)
Theorem is_hub_iff city airlines :
  all_supported airlines = true →
  ∃ b, is_hub city airlines = Ok b ∧
       (b = true ↔ ∃ a, a ∈ airlines ∧ get_hub a = Ok city).
Proof.
  intros Hs. destruct (get_hubs_supported airlines Hs) as [hs Hhs].
  unfold is_hub. rewrite Hhs. simpl. eexists. split; [done|].
  rewrite bool_decide_eq_true. by apply get_hubs_elem.
Qed.

Lemma is_hub_iff_witness :
  ∃ b, is_hub "Dubai" ["Qatar Airways"; "Emirates"] = Ok b ∧
       (b = true ↔
        ∃ a, a ∈ ["Qatar Airways"; "Emirates"] ∧ get_hub a = Ok "Dubai").
Proof. apply is_hub_iff. reflexivity. Defined.


End RulesFacts.

(** ** The route graph *)

Module GraphFacts.
Import Rules RulesFacts DataLoader GraphBuilder.

(** [adj[i]] holds the edge [e]. *)
Definition edge_in (adj : list (list Edge)) (i : nat) (e : Edge) : Prop :=
  ∃ row, adj !! i = Some row ∧ e ∈ row.

(** The column of a row that holds the distance to the hub [hub]. *)
Definition hub_column (hub : string) (row : Row) : pyfloat :=
  if String.eqb hub "Doha" then Distance_to_Doha row
  else if String.eqb hub "Dubai" then Distance_to_Dubai row
  else Distance_to_Abu_Dhabi row.

(** What one pass of the loop over the cities adds for the city [c]. *)
Definition city_rule (df : list Row) (city_to_index : gmap string nat)
    (airline hub : string) (hi : nat) (c : string) (i : nat) (e : Edge) : Prop :=
  c ≠ hub ∧ airline_serves_city airline c = true ∧
  ∃ ci d, city_to_index !! c = Some ci ∧ dist df hub c = Ok d ∧
    feq d PInf = false ∧
    ((i = hi ∧ e = (ci, d, Some airline)) ∨ (i = ci ∧ e = (hi, d, Some airline))).

(** What one pass of the loop over the airlines adds. *)
Definition airline_rule (df : list Row) (cities : list string)
    (city_to_index : gmap string nat) (airline : string) (i : nat) (e : Edge)
  : Prop :=
  ∃ hub hi, get_hub airline = Ok hub ∧ city_to_index !! hub = Some hi ∧
    ∃ c, c ∈ cities ∧ city_rule df city_to_index airline hub hi c i e.

(** The edge rule as C2 states it, for the edge from a hub to a city: the
    edge is there exactly when the airline serves the city and the distance
    of the table is a finite, known number. *)
Definition edge_iff_finite_distance : Prop :=
  ∀ df airlines adj c2i i2c df' airline hub c hi ci row,
    build_graph df airlines = Ok (adj, c2i, i2c, df') →
    airline ∈ airlines → get_hub airline = Ok hub →
    c2i !! hub = Some hi → c2i !! c = Some ci → c ≠ hub →
    first_row df c = Ok row →
    (edge_in adj hi (ci, hub_column hub row, Some airline) ↔
     airline_serves_city airline c = true ∧ is_finite (hub_column hub row) = true).

(** The mappings are a bijection between the city names of the table and
    the indices below the number of rows. *)
Definition index_bijection (cities : list string)
    (city_to_index : gmap string nat) (index_to_city : gmap nat string) : Prop :=
  (∀ c, c ∈ cities → is_Some (city_to_index !! c)) ∧
  (∀ i, i < length cities → is_Some (index_to_city !! i)) ∧
  (∀ c i, city_to_index !! c = Some i ↔ index_to_city !! i = Some c) ∧
  (∀ c i, city_to_index !! c = Some i → i < length cities).

Lemma enumerate_snoc {A} (l : list A) x :
  enumerate (l ++ [x]) = enumerate l ++ [(length l, x)].
Proof.
  unfold enumerate. rewrite imap_app. simpl. by rewrite Nat.add_0_r.
Qed.

Lemma city_to_index_of_snoc l x :
  city_to_index_of (l ++ [x]) = <[x := length l]> (city_to_index_of l).
Proof. unfold city_to_index_of. by rewrite enumerate_snoc, foldl_app. Qed.

Lemma index_to_city_of_snoc l x :
  index_to_city_of (l ++ [x]) = <[length l := x]> (index_to_city_of l).
Proof. unfold index_to_city_of. by rewrite enumerate_snoc, foldl_app. Qed.

Lemma index_to_city_lookup l i : index_to_city_of l !! i = l !! i.
Proof.
  induction l as [|x l IH] using rev_ind; [done|].
  rewrite index_to_city_of_snoc.
  destruct (decide (i = length l)) as [->|Hne].
  - rewrite lookup_insert_eq. by rewrite list_lookup_middle.
  - rewrite lookup_insert_ne by done. rewrite IH.
    destruct (decide (i < length l)).
    + by rewrite lookup_app_l.
    + rewrite !lookup_ge_None_2; [done| |lia].
      rewrite length_app. simpl. lia.
Qed.

Lemma city_to_index_lookup_Some l c i :
  city_to_index_of l !! c = Some i → l !! i = Some c.
Proof.
  revert i. induction l as [|x l IH] using rev_ind; intros i; [done|].
  rewrite city_to_index_of_snoc.
  destruct (decide (x = c)) as [->|Hne].
  - rewrite lookup_insert_eq. intros [= <-]. by rewrite list_lookup_middle.
  - rewrite lookup_insert_ne by done. intros H%IH.
    rewrite lookup_app_l; [done|]. by eapply lookup_lt_Some.
Qed.

Lemma city_to_index_is_Some l c :
  c ∈ l ↔ is_Some (city_to_index_of l !! c).
Proof.
  split.
  - induction l as [|x l IH] using rev_ind; [by intros ?%elem_of_nil|].
    rewrite city_to_index_of_snoc, elem_of_app, list_elem_of_singleton.
    intros Hin. destruct (decide (x = c)) as [->|Hne].
    + rewrite lookup_insert_eq. eauto.
    + rewrite lookup_insert_ne by done. apply IH.
      destruct Hin as [?|?]; [done|congruence].
  - intros [i Hi]. apply city_to_index_lookup_Some in Hi.
    by eapply list_elem_of_lookup_2.
Qed.

Lemma city_to_index_NoDup l c i :
  NoDup l → l !! i = Some c → city_to_index_of l !! c = Some i.
Proof.
  intros Hnd Hi.
  assert (Hin : c ∈ l) by (by eapply list_elem_of_lookup_2).
  destruct (proj1 (city_to_index_is_Some l c) Hin) as [j Hj].
  pose proof (city_to_index_lookup_Some _ _ _ Hj) as Hj'.
  by rewrite (NoDup_lookup l i j c Hnd Hi Hj').
Qed.

Lemma city_to_index_lt l c i :
  city_to_index_of l !! c = Some i → i < length l.
Proof. intros H%city_to_index_lookup_Some. by eapply lookup_lt_Some. Qed.

Lemma city_to_index_back l c i :
  city_to_index_of l !! c = Some i → index_to_city_of l !! i = Some c.
Proof. rewrite index_to_city_lookup. apply city_to_index_lookup_Some. Qed.

(** Without two rows of the same name the mappings are a bijection. *)
Lemma index_bijection_NoDup cities :
  NoDup cities →
  index_bijection cities (city_to_index_of cities) (index_to_city_of cities).
Proof.
  intros Hnd. repeat split.
  - by apply city_to_index_is_Some.
  - intros Hi. rewrite index_to_city_lookup. by apply lookup_lt_is_Some_2.
  - apply city_to_index_back.
  - rewrite index_to_city_lookup. by apply city_to_index_NoDup.
  - apply city_to_index_lt.
Qed.

(** *** Edges added by the loops *)

Ltac unbind := unfold mbind, res_bind in *.

Lemma edge_in_insert adj i row e j e' :
  adj !! i = Some row →
  edge_in (<[i := row ++ [e]]> adj) j e' ↔ edge_in adj j e' ∨ (j = i ∧ e' = e).
Proof.
  intros Hrow. unfold edge_in. destruct (decide (j = i)) as [->|Hne].
  - rewrite list_lookup_insert_eq by (by eapply lookup_lt_Some). split.
    + intros (r & [= <-] & Hin). apply elem_of_app in Hin as [Hin|Hin].
      * left. eauto.
      * apply list_elem_of_singleton in Hin. by right.
    + intros [(r & Hr & Hin) | [_ ->]]; eexists; (split; [done|]).
      * rewrite Hrow in Hr. injection Hr as <-. apply elem_of_app. by left.
      * apply elem_of_app. right. by apply list_elem_of_singleton.
  - rewrite list_lookup_insert_ne by done. split; [by left|].
    intros [?|[? _]]; done.
Qed.

Lemma append_edge_Ok adj i e adj' :
  append_edge adj i e = Ok adj' →
  length adj' = length adj ∧
  ∀ j e', edge_in adj' j e' ↔ edge_in adj j e' ∨ (j = i ∧ e' = e).
Proof.
  unfold append_edge, list_get. unbind.
  destruct (adj !! i) as [row|] eqn:Hrow; [|done].
  intros [= <-]. split; [by rewrite length_insert|].
  intros j e'. by apply edge_in_insert.
Qed.

Lemma city_step_Ok df c2i airline hub hi adj c adj' :
  city_step df c2i airline hub hi adj c = Ok adj' →
  length adj' = length adj ∧
  ∀ j e, edge_in adj' j e ↔ edge_in adj j e ∨ city_rule df c2i airline hub hi c j e.
Proof.
  unfold city_step, city_rule, dict_get. unbind.
  destruct (String.eqb_spec c hub) as [->|Hne].
  { intros [= <-]. split; [done|]. intros j e. split; [by left|].
    intros [?|[? _]]; done. }
  destruct (airline_serves_city airline c) eqn:Hserves; simpl.
  2:{ intros [= <-]. split; [done|]. intros j e. split; [by left|].
      intros [?|(_ & ? & _)]; done. }
  destruct (c2i !! c) as [ci|] eqn:Hci; [|done].
  destruct (dist df hub c) as [d| |] eqn:Hd; [|done|done].
  destruct (feq d PInf) eqn:Hinf.
  { intros [= <-]. split; [done|]. intros j e. split; [by left|].
    intros [?|(_ & _ & ci0 & d0 & _ & [= <-] & Hf & _)]; [done | congruence]. }
  destruct (append_edge adj hi (ci, d, Some airline)) as [adj1| |] eqn:H1;
    [|done|done].
  intros H2.
  apply append_edge_Ok in H1 as [Hl1 H1], H2 as [Hl2 H2].
  split; [congruence|].
  intros j e. rewrite H2, H1. split.
  - intros [[?|[-> ->]]|[-> ->]]; [by left|right..];
      (split; [done|]); (split; [done|]); exists ci, d;
      (split; [done|]); (split; [done|]); (split; [done|]); [by left | by right].
  - intros [?|(_ & _ & ci0 & d0 & [= <-] & [= <-] & _ & [[-> ->]|[-> ->]])];
      eauto.
Qed.

(** A loop whose passes only add edges adds the edges of all its passes. *)
Lemma foldM_edges {A} (f : list (list Edge) → A → res (list (list Edge)))
    (Q : A → nat → Edge → Prop) :
  (∀ adj x adj', f adj x = Ok adj' →
     length adj' = length adj ∧
     ∀ j e, edge_in adj' j e ↔ edge_in adj j e ∨ Q x j e) →
  ∀ l adj adj', foldM f adj l = Ok adj' →
    length adj' = length adj ∧
    ∀ j e, edge_in adj' j e ↔ edge_in adj j e ∨ ∃ x, x ∈ l ∧ Q x j e.
Proof.
  intros Hf l. induction l as [|x l IH]; intros adj adj'; simpl.
  - intros [= <-]. split; [done|]. intros j e. split; [by left|].
    intros [?|(x & Hx & _)]; [done|]. by apply elem_of_nil in Hx.
  - unbind. destruct (f adj x) as [adj1| |] eqn:H1; [|done|done].
    intros H2. apply Hf in H1 as [Hl1 H1]. apply IH in H2 as [Hl2 H2].
    split; [congruence|]. intros j e. rewrite H2, H1.
    split.
    + intros [[?|?]|(y & Hy & ?)]; [by left|right; exists x|right; exists y];
        (split; [|done]); [by left|by right].
    + intros [?|(y & [->|Hy]%elem_of_cons & ?)];
        [by left; left|by left; right|right; by exists y].
Qed.

Lemma airline_step_Ok df cities c2i adj airline adj' :
  airline_step df cities c2i adj airline = Ok adj' →
  length adj' = length adj ∧
  ∀ j e, edge_in adj' j e ↔ edge_in adj j e ∨ airline_rule df cities c2i airline j e.
Proof.
  unfold airline_step, airline_rule. unbind.
  destruct (get_hub airline) as [hub| |] eqn:Hhub; [|done|done].
  destruct (c2i !! hub) as [hi|] eqn:Hhi.
  - intros H. eapply foldM_edges in H as [Hl H]; [|apply city_step_Ok].
    split; [done|]. intros j e. rewrite H. split.
    + intros [?|(c & ? & ?)]; [by left|right]. exists hub, hi.
      do 2 (split; [done|]). by exists c.
    + intros [?|(hub' & hi' & [= <-] & Hhi' & c & ? & ?)]; [by left|right].
      rewrite Hhi in Hhi'. injection Hhi' as <-. by exists c.
  - intros [= <-]. split; [done|]. intros j e. split; [by left|].
    intros [?|(hub' & hi' & [= <-] & Hhi' & _)]; [done|congruence].
Qed.

Lemma edge_in_replicate n j e : ¬ edge_in (replicate n []) j e.
Proof.
  intros (row & Hrow & Hin). apply lookup_replicate in Hrow as [-> _].
  by apply elem_of_nil in Hin.
Qed.

(** The graph [build_graph] returns, edge by edge. *)
Lemma build_graph_Ok df airlines adj c2i i2c df' :
  build_graph df airlines = Ok (adj, c2i, i2c, df') →
  c2i = city_to_index_of (map City df) ∧
  i2c = index_to_city_of (map City df) ∧
  df' = df ∧
  length adj = length df ∧
  first_unsupported airlines = None ∧
  ∀ j e, edge_in adj j e ↔
    ∃ airline, airline ∈ airlines ∧ airline_rule df (map City df) c2i airline j e.
Proof.
  unfold build_graph. unbind.
  destruct (first_unsupported airlines); [done|].
  destruct (foldM _ _ _) as [adj0| |] eqn:H; [|done|done].
  intros [= -> <- <- <-].
  eapply foldM_edges in H as [Hl H]; [|apply airline_step_Ok].
  rewrite length_replicate, length_map in Hl.
  repeat split; try done.
  - intros Hin. apply H in Hin as [Hin|Hin]; [|done].
    by apply edge_in_replicate in Hin.
  - intros Hin. apply H. by right.
Qed.


Lemma first_row_elem df c :
  c ∈ map City df → ∃ row, first_row df c = Ok row ∧ City row = c.
Proof.
  unfold first_row. induction df as [|r df IH]; simpl.
  - by intros ?%elem_of_nil.
  - intros Hin. rewrite filter_cons. destruct (decide (City r = c)) as [Heq|Hne].
    + by exists r.
    + apply IH. apply elem_of_cons in Hin as [Hin|Hin]; congruence.
Qed.

Lemma get_hub_cases airline hub :
  get_hub airline = Ok hub →
  (airline = "Qatar Airways" ∧ hub = "Doha") ∨
  (airline = "Emirates" ∧ hub = "Dubai") ∨
  (airline = "Etihad" ∧ hub = "Abu Dhabi").
Proof.
  intros H. pose proof (get_hub_Ok_supported _ _ H) as Hs.
  apply supported_cases in Hs as [-> | [-> | ->]];
    vm_compute in H; injection H as <-; auto.
Qed.

(** From a hub, [dist] reads the hub's column in the first row of the city. *)
Lemma dist_from_hub df airline hub c row :
  get_hub airline = Ok hub → c ≠ hub → hub ∈ map City df →
  first_row df c = Ok row →
  dist df hub c = Ok (hub_column hub row).
Proof.
  intros Hhub Hne Hin Hrow. unfold dist. unbind.
  destruct (String.eqb_spec hub c) as [->|_]; [done|].
  destruct (first_row_elem _ _ Hin) as (rh & -> & _). rewrite Hrow.
  apply get_hub_cases in Hhub as [[_ ->] | [[_ ->] | [_ ->]]]; reflexivity.
Qed.

Lemma city_to_index_elem df c i :
  city_to_index_of (map City df) !! c = Some i → c ∈ map City df.
Proof. intros H. apply city_to_index_is_Some. eauto. Qed.

(** C2, as stated, fails: with the distance from London to Doha missing
    from the table (NaN), the edge between Doha and London is built all the
    same, with NaN as its weight. *)
Lemma C2_edge_with_unknown_distance : ¬ edge_iff_finite_distance.
Proof.
  intros H.
  set (doha := mkRow "Doha" "Qatar" (Fin 25) (Fin 51) (Fin 0) (Fin 380) (Fin 320)).
  set (london := mkRow "London" "UK" (Fin 51) (Fin 0) NaN (Fin 5500) (Fin 5480)).
  assert (Hb : build_graph [doha; london] ["Qatar Airways"]
    = Ok ([[(1, NaN, Some "Qatar Airways")]; [(0, NaN, Some "Qatar Airways")]],
          city_to_index_of ["Doha"; "London"], index_to_city_of ["Doha"; "London"],
          [doha; london])) by (vm_compute; reflexivity).
  assert (Hin : "Qatar Airways" ∈ ["Qatar Airways"])
    by (by apply list_elem_of_singleton).
  assert (Hhi : city_to_index_of ["Doha"; "London"] !! "Doha" = Some 0)
    by (vm_compute; reflexivity).
  assert (Hci : city_to_index_of ["Doha"; "London"] !! "London" = Some 1)
    by (vm_compute; reflexivity).
  assert (Hne : "London" ≠ "Doha") by discriminate.
  destruct (H _ _ _ _ _ _ "Qatar Airways" "Doha" "London" 0 1 london
              Hb Hin eq_refl Hhi Hci Hne eq_refl) as [H1 _].
  destruct H1 as [_ Hfin]; [|discriminate].
  exists [(1, NaN, Some "Qatar Airways")]. split; [reflexivity|].
  by apply list_elem_of_singleton.
Qed.

(** The edges of a built graph, with the row that gives each its weight. *)
Lemma build_graph_edges df airlines adj c2i i2c df' :
  build_graph df airlines = Ok (adj, c2i, i2c, df') →
  ∀ i j w lbl, edge_in adj i (j, w, lbl) ↔
    ∃ airline hub c hi ci row,
      lbl = Some airline ∧ airline ∈ airlines ∧ get_hub airline = Ok hub ∧
      c2i !! hub = Some hi ∧ c2i !! c = Some ci ∧ c ≠ hub ∧
      first_row df c = Ok row ∧
      airline_serves_city airline c = true ∧
      w = hub_column hub row ∧ feq w PInf = false ∧
      ((i = hi ∧ j = ci) ∨ (i = ci ∧ j = hi)).
Proof.
  intros (-> & -> & -> & Hlen & _ & Hedges)%build_graph_Ok i j w lbl.
  rewrite Hedges. unfold airline_rule, city_rule. split.
  - intros (airline & Hin & hub & hi & Hhub & Hhi & c & Hc & Hne & Hs
            & ci & d & Hci & Hd & Hinf & Hdir).
    destruct (first_row_elem _ _ Hc) as (row & Hrow & _).
    rewrite (dist_from_hub df airline hub c row) in Hd;
      [|done|done|by eapply city_to_index_elem|done].
    injection Hd as <-.
    exists airline, hub, c, hi, ci, row.
    destruct Hdir as [[-> [= -> -> ->]] | [-> [= -> -> ->]]]; repeat split; auto.
  - intros (airline & hub & c & hi & ci & row & -> & Hin & Hhub & Hhi & Hci
            & Hne & Hrow & Hs & -> & Hinf & Hdir).
    exists airline. split; [done|]. exists hub, hi. do 2 (split; [done|]).
    exists c. split; [by eapply city_to_index_elem|].
    do 2 (split; [done|]). exists ci, (hub_column hub row).
    split; [done|]. split.
    { apply (dist_from_hub df airline); auto. by eapply city_to_index_elem. }
    split; [done|]. destruct Hdir as [[-> ->] | [-> ->]]; auto.
Qed.

(** C2, amended: [adj[i]] holds an edge to [j] exactly when some requested
    airline, whose hub is in the table, and some city [c] of the table other
    than that hub are such that the airline serves [c], the distance to the
    hub read in the first row named [c] is not plus infinity (a missing
    distance, NaN, is let through), the edge carries that distance and the
    airline as label, and [i], [j] are the indices of the hub and of [c], in
    either direction.  So every edge has the hub of a requested airline at
    one end. *)
Theorem C2_edge_rule df airlines adj c2i i2c df' :
  build_graph df airlines = Ok (adj, c2i, i2c, df') →
  ∀ i j w lbl, edge_in adj i (j, w, lbl) ↔
    ∃ airline hub c hi ci row,
      lbl = Some airline ∧ airline ∈ airlines ∧ get_hub airline = Ok hub ∧
      c2i !! hub = Some hi ∧ c2i !! c = Some ci ∧ c ≠ hub ∧
      first_row df c = Ok row ∧
      airline_serves_city airline c = true ∧
      w = hub_column hub row ∧ feq w PInf = false ∧
      ((i = hi ∧ j = ci) ∨ (i = ci ∧ j = hi)).
Proof. apply build_graph_edges. Qed.

(** A table with Doha, London and Mumbai, and the graph of Qatar Airways. *)
Definition small_table : list Row :=
  [ mkRow "Doha" "Qatar" (Fin 25) (Fin 51) (Fin 0) (Fin 380) (Fin 320);
    mkRow "London" "UK" (Fin 51) (Fin 0) (Fin 5200) (Fin 5500) (Fin 5480);
    mkRow "Mumbai" "India" (Fin 19) (Fin 72) (Fin 2300) (Fin 1930) (Fin 1970) ].

Definition small_graph : list (list Edge) :=
  [ [ (1, Fin 5200, Some "Qatar Airways"); (2, Fin 2300, Some "Qatar Airways") ];
    [ (0, Fin 5200, Some "Qatar Airways") ];
    [ (0, Fin 2300, Some "Qatar Airways") ] ].

Definition small_names : list string := ["Doha"; "London"; "Mumbai"].

Lemma small_graph_built :
  build_graph small_table ["Qatar Airways"]
  = Ok (small_graph, city_to_index_of small_names, index_to_city_of small_names,
        small_table).
Proof. vm_compute. reflexivity. Qed.

Lemma C2_edge_rule_witness :
  edge_in small_graph 1 (0, Fin 5200, Some "Qatar Airways") ↔
    ∃ airline hub c hi ci row,
      Some "Qatar Airways" = Some airline ∧ airline ∈ ["Qatar Airways"] ∧
      get_hub airline = Ok hub ∧
      city_to_index_of small_names !! hub = Some hi ∧
      city_to_index_of small_names !! c = Some ci ∧ c ≠ hub ∧
      first_row small_table c = Ok row ∧
      airline_serves_city airline c = true ∧
      Fin 5200 = hub_column hub row ∧ feq (Fin 5200) PInf = false ∧
      ((1 = hi ∧ 0 = ci) ∨ (1 = ci ∧ 0 = hi)).
Proof.
  apply (C2_edge_rule small_table ["Qatar Airways"] small_graph
           (city_to_index_of small_names) (index_to_city_of small_names)
           small_table).
  vm_compute. reflexivity.
Defined.

(** Two rows of one city name in two countries. *)
Definition two_paris : list Row :=
  [ mkRow "Paris" "France" (Fin 48) (Fin 2) (Fin 4980) (Fin 5240) (Fin 5250);
    mkRow "Paris" "USA" (Fin 33) (Fin (-95)) (Fin 12700) (Fin 12900) (Fin 13000) ].

(** C6 fails on the code: the cleaning step keeps both rows named Paris (they
    differ in Country), and [build_graph] then gives the graph two nodes but
    maps the one name to index 1 only, while both indices map back to it. *)
Theorem C6_duplicate_city_names :
  clean_airport_data two_paris = two_paris ∧
  ∃ adj c2i i2c,
    build_graph (clean_airport_data two_paris) [] = Ok (adj, c2i, i2c, two_paris) ∧
    length adj = 2 ∧
    c2i !! "Paris" = Some 1 ∧ i2c !! 0 = Some "Paris" ∧ i2c !! 1 = Some "Paris" ∧
    ¬ index_bijection (map City two_paris) c2i i2c.
Proof.
  split; [reflexivity|].
  exists [[]; []], (city_to_index_of ["Paris"; "Paris"]),
    (index_to_city_of ["Paris"; "Paris"]).
  split; [vm_compute; reflexivity|].
  split; [reflexivity|].
  split; [vm_compute; reflexivity|].
  split; [vm_compute; reflexivity|].
  split; [vm_compute; reflexivity|].
  intros (_ & _ & H & _).
  assert (H0 : index_to_city_of ["Paris"; "Paris"] !! 0 = Some "Paris")
    by (vm_compute; reflexivity).
  apply H in H0. vm_compute in H0. discriminate.
Qed.


(** *** What the searches use of a built graph *)

Lemma build_graph_index df airlines adj c2i i2c df' c i :
  build_graph df airlines = Ok (adj, c2i, i2c, df') →
  c2i !! c = Some i → i < length adj ∧ i2c !! i = Some c.
Proof.
  intros (-> & -> & -> & Hlen & _)%build_graph_Ok Hi. split.
  - apply city_to_index_lt in Hi. rewrite length_map in Hi. lia.
  - by apply city_to_index_back.
Qed.

Lemma build_graph_edge_nodes df airlines adj c2i i2c df' i j w lbl :
  build_graph df airlines = Ok (adj, c2i, i2c, df') →
  edge_in adj i (j, w, lbl) →
  (∃ c, c2i !! c = Some i) ∧ (∃ c, c2i !! c = Some j).
Proof.
  intros Hb He. apply (build_graph_edges _ _ _ _ _ _ Hb) in He
    as (airline & hub & c & hi & ci & row & _ & _ & _ & Hhi & Hci & _ & _ & _
        & _ & _ & [[-> ->] | [-> ->]]); eauto.
Qed.

(** Between two nodes there is one weight per airline. *)
Lemma build_graph_edge_weight_unique df airlines adj c2i i2c df' i j w w' lbl :
  build_graph df airlines = Ok (adj, c2i, i2c, df') →
  edge_in adj i (j, w, lbl) → edge_in adj i (j, w', lbl) → w = w'.
Proof.
  intros Hb He He'.
  pose proof Hb as (-> & _)%build_graph_Ok.
  apply (build_graph_edges _ _ _ _ _ _ Hb) in He
    as (a & hub & c & hi & ci & row & -> & _ & Hhub & Hhi & Hci & Hne & Hrow
        & _ & -> & _ & Hdir).
  apply (build_graph_edges _ _ _ _ _ _ Hb) in He'
    as (a' & hub' & c' & hi' & ci' & row' & [= <-] & _ & Hhub' & Hhi' & Hci'
        & Hne' & Hrow' & _ & -> & _ & Hdir').
  assert (hub' = hub) as -> by congruence.
  assert (hi' = hi) as -> by congruence.
  apply city_to_index_lookup_Some in Hhi, Hci, Hci'.
  assert (c' = c) as ->.
  { destruct Hdir as [[-> ->] | [-> ->]], Hdir' as [[? ?] | [? ?]];
      subst; congruence. }
  congruence.
Qed.

Lemma build_graph_mono df S T adjS adjT c2iS c2iT i2cS i2cT dfS dfT :
  (∀ a, a ∈ S → a ∈ T) →
  build_graph df S = Ok (adjS, c2iS, i2cS, dfS) →
  build_graph df T = Ok (adjT, c2iT, i2cT, dfT) →
  c2iS = c2iT ∧ i2cS = i2cT ∧ length adjS = length adjT ∧
  ∀ i e, edge_in adjS i e → edge_in adjT i e.
Proof.
  intros Hsub (-> & -> & -> & HlS & _ & HS)%build_graph_Ok
    (-> & -> & -> & HlT & _ & HT)%build_graph_Ok.
  repeat split; [congruence|].
  intros i e. rewrite HS, HT. intros (a & Ha & Hrule). eauto.
Qed.

End GraphFacts.

(** ** The searches *)

Module SearchFacts.
Import Rules RulesFacts DataLoader GraphBuilder Dijkstra GraphFacts.
Local Open Scope nat_scope.

(** [a <= b] *)
Definition fle (a b : pyfloat) : bool := flt a b || feq a b.

(** A path of the graph from [s]: the nodes it goes through, the node it
    ends in, and the sum of the weights of its edges, added from 0.0 in the
    order of the path. *)
Inductive is_path (adj : list (list Edge)) (s : nat)
  : list nat → nat → pyfloat → Prop :=
  | path_start : s < length adj → is_path adj s [s] s (Fin 0)
  | path_step nodes u v w a W :
      is_path adj s nodes u W → edge_in adj u (v, w, a) →
      is_path adj s (nodes ++ [v]) v (fadd W w).

(** Every weight is a finite number that is not negative. *)
Definition nonneg_weights (adj : list (list Edge)) : Prop :=
  ∀ i j w a, edge_in adj i (j, w, a) → ∃ x, w = Fin x ∧ (0 ≤ x)%Z.

(** Every edge leads to a node of the graph. *)
Definition closed_graph (adj : list (list Edge)) : Prop :=
  ∀ i j w a, edge_in adj i (j, w, a) → j < length adj.

(** The weight of the first edge from [u] to [v] that carries the label [a]. *)
Definition edge_weight (adj : list (list Edge)) (u v : nat) (a : option string)
  : option pyfloat :=
  row ← adj !! u;
  e ← head (filter (λ e : Edge, e.1.1 = v ∧ e.2 = a) row);
  Some e.1.2.

(** The weight of a leg, looked up in the graph. *)
Definition leg_weight (adj : list (list Edge)) (city_to_index : gmap string nat)
    (leg : string * string * option string) : option pyfloat :=
  u ← city_to_index !! leg.1.1;
  v ← city_to_index !! leg.1.2;
  edge_weight adj u v leg.2.

(** The sum of the weights of the legs, added from 0.0 in their order. *)
Definition legs_total (adj : list (list Edge)) (city_to_index : gmap string nat)
    (legs : list (string * string * option string)) : option pyfloat :=
  foldl (λ acc leg, t ← acc; w ← leg_weight adj city_to_index leg; Some (fadd t w))
    (Some (Fin 0)) legs.



(** Iterations that are enough for the loops of a search on [adj]. *)
Definition enough_fuel (adj : list (list Edge)) : nat :=
  length (concat adj) + length adj + 2.

(** Order of the keys of two heap items. *)
Definition key_le (x y : pyfloat * nat) : Prop :=
  ∃ a b, x.1 = Fin a ∧ y.1 = Fin b ∧ (a ≤ b)%Z.

(** Edges still to be looked at from the nodes that are not done, counted
    from row [k] on. *)
Fixpoint pending_from (done : list nat) (k : nat) (rows : list (list Edge)) : nat :=
  match rows with
  | [] => 0
  | row :: rest =>
      (if decide (k ∈ done) then 0 else length row) + pending_from done (S k) rest
  end.

Section Invariant.
Context {P : Type} (record : nat → option string → P).
Variables (adj : list (list Edge)) (src : nat).

(** The predecessor links from [src] to a node, with what they say about
    the distances: each link is an edge of the graph out of a node that is
    done, and adds the weight of that edge. *)
Inductive tree_path (done : list nat) (dists : list pyfloat)
    (prevs : list (option P)) : nat → list nat → Prop :=
  | tree_root : tree_path done dists prevs src [src]
  | tree_step u v nodes a x du :
      tree_path done dists prevs u nodes → u ∈ done → v ∉ nodes →
      edge_in adj u (v, Fin x, a) →
      prevs !! v = Some (Some (record u a)) →
      dists !! u = Some (Fin du) → dists !! v = Some (Fin (du + x)%Z) →
      tree_path done dists prevs v (nodes ++ [v]).

(** The loop invariant of [while heap], between two edges of the inner
    loop: [done] are the nodes expanded so far, [bound] the key popped last,
    [u] the node being expanded and [pending] its edges not yet looked at. *)
Record Inv (done : list nat) (bound : Z) (u : nat) (pending : list Edge)
    (st : state P) : Prop := {
  inv_len_dist : length (dist st) = length adj;
  inv_len_prev : length (prev st) = length adj;
  inv_src_dist : dist st !! src = Some (Fin 0);
  inv_src_prev : prev st !! src = Some None;
  inv_shape : ∀ v d, dist st !! v = Some d →
    d = PInf ∨ ∃ x, d = Fin x ∧ (0 ≤ x)%Z;
  inv_tree : ∀ v x, dist st !! v = Some (Fin x) →
    ∃ nodes, tree_path done (dist st) (prev st) v nodes;
  inv_relaxed : ∀ u' v x a, u' ∈ done → edge_in adj u' (v, Fin x, a) →
    (u' = u ∧ (v, Fin x, a) ∈ pending) ∨
    ∃ du dv, dist st !! u' = Some (Fin du) ∧ dist st !! v = Some (Fin dv) ∧
      (dv ≤ du + x)%Z;
  inv_done : ∀ u', u' ∈ done →
    ∃ du, dist st !! u' = Some (Fin du) ∧ (du ≤ bound)%Z;
  inv_bound : ∀ k v, (k, v) ∈ heap st → ∃ kx, k = Fin kx ∧ (bound ≤ kx)%Z;
  inv_frontier : ∀ v x, v ∉ done → dist st !! v = Some (Fin x) →
    (Fin x, v) ∈ heap st;
  inv_heap : ∀ k v, (k, v) ∈ heap st →
    ∃ kx dv, k = Fin kx ∧ dist st !! v = Some (Fin dv) ∧ (dv ≤ kx)%Z;
  inv_sorted : StronglySorted key_le (heap st);
  inv_bound_nonneg : (0 ≤ bound)%Z
}.

(** What the loop leaves when it ends, for the destination [dst]. *)
Record Final (dst : nat) (st : state P) : Prop := {
  fin_len_dist : length (dist st) = length adj;
  fin_len_prev : length (prev st) = length adj;
  fin_src_dist : dist st !! src = Some (Fin 0);
  fin_src_prev : prev st !! src = Some None;
  fin_shape : ∀ v d, dist st !! v = Some d →
    d = PInf ∨ ∃ x, d = Fin x ∧ (0 ≤ x)%Z;
  fin_tree : ∀ v x, dist st !! v = Some (Fin x) →
    ∃ done nodes, tree_path done (dist st) (prev st) v nodes;
  fin_optimal : ∀ nodes W, is_path adj src nodes dst (Fin W) →
    ∃ x, dist st !! dst = Some (Fin x) ∧ (x ≤ W)%Z
}.

End Invariant.

Lemma fle_Fin x y : fle (Fin x) (Fin y) = true ↔ (x ≤ y)%Z.
Proof. unfold fle. simpl. rewrite orb_true_iff, Z.ltb_lt, Z.eqb_eq. lia. Qed.

(** *** The heap *)

Lemma elem_of_heappush h x z : z ∈ heappush h x ↔ z = x ∨ z ∈ h.
Proof.
  induction h as [|y h IH]; simpl.
  - rewrite list_elem_of_singleton, elem_of_nil. tauto.
  - destruct (tuple_lt x y).
    + by rewrite elem_of_cons.
    + rewrite !elem_of_cons, IH. tauto.
Qed.

Lemma length_heappush h x : length (heappush h x) = S (length h).
Proof.
  induction h as [|y h IH]; simpl; [done|].
  destruct (tuple_lt x y); simpl; by rewrite ?IH.
Qed.

Lemma key_le_trans x y z : key_le x y → key_le y z → key_le x z.
Proof.
  intros (a & b & Ha & Hb & Hab) (b' & c & Hb' & Hc & Hbc).
  exists a, c. repeat split; try done. rewrite Hb in Hb'. injection Hb' as <-. lia.
Qed.

Lemma tuple_lt_key_le a u b v :
  (if tuple_lt (Fin a, u) (Fin b, v) then key_le (Fin a, u) (Fin b, v)
   else key_le (Fin b, v) (Fin a, u)).
Proof.
  unfold tuple_lt, key_le. simpl.
  destruct (Z.eqb_spec a b) as [->|Hne].
  - destruct (u <? v)%nat; exists b, b; repeat split; lia.
  - destruct (Z.ltb_spec a b); [exists a, b | exists b, a]; repeat split; lia.
Qed.

Lemma heappush_sorted h a u :
  Forall (λ y, ∃ b, y.1 = Fin b) h →
  StronglySorted key_le h → StronglySorted key_le (heappush h (Fin a, u)).
Proof.
  induction h as [|[k v] h IH]; intros Hfin Hs; simpl.
  - repeat constructor.
  - apply Forall_cons in Hfin as [[b Hb] Hfin]. simpl in Hb. subst k.
    apply StronglySorted_inv in Hs as [Hs Hall].
    pose proof (tuple_lt_key_le a u b v) as Hcmp.
    destruct (tuple_lt (Fin a, u) (Fin b, v)).
    + constructor; [by constructor|]. constructor; [done|].
      eapply Forall_impl; [exact Hall|]. intros z Hz. by eapply key_le_trans.
    + constructor; [by apply IH|].
      apply Forall_forall. intros z [->|Hz]%elem_of_heappush; [done|].
      rewrite Forall_forall in Hall. by apply Hall.
Qed.

(** *** Edges still to be looked at *)

Lemma pending_from_nil k rows : pending_from [] k rows = length (concat rows).
Proof.
  revert k. induction rows as [|row rows IH]; intros k; simpl; [done|].
  rewrite length_app, IH. destruct (decide (k ∈ [])) as [H|_]; [|done].
  by apply elem_of_nil in H.
Qed.

Lemma pending_from_mono done u k rows :
  pending_from (u :: done) k rows ≤ pending_from done k rows.
Proof.
  revert k. induction rows as [|row rows IH]; intros k; simpl; [done|].
  specialize (IH (S k)).
  destruct (decide (k ∈ u :: done)) as [H1|H1], (decide (k ∈ done)) as [H2|H2];
    try lia.
  exfalso. apply H1. by apply elem_of_cons; right.
Qed.

Lemma pending_from_done done k rows i row :
  rows !! i = Some row → k + i ∉ done →
  pending_from ((k + i) :: done) k rows + length row ≤ pending_from done k rows.
Proof.
  revert k i. induction rows as [|r rows IH]; intros k i; [done|].
  destruct i as [|i]; simpl.
  - intros [= ->] Hnot. rewrite Nat.add_0_r in *.
    pose proof (pending_from_mono done k (S k) rows).
    destruct (decide (k ∈ k :: done)) as [_|H1]; [|set_solver].
    destruct (decide (k ∈ done)); [done|]. lia.
  - intros Hrow Hnot. replace (k + S i) with (S k + i) in * by lia.
    specialize (IH (S k) i Hrow Hnot).
    destruct (decide (k ∈ S k + i :: done)) as [H1|H1],
      (decide (k ∈ done)) as [H2|H2]; try lia.
    exfalso. apply H1. by apply elem_of_cons; right.
Qed.


(** *** Predecessor links *)

Section TreePath.
Context {P : Type} (record : nat → option string → P).
Variables (adj : list (list Edge)) (src : nat).

Local Abbreviation tree_path := (tree_path record adj src).

Lemma tree_path_last done ds ps v nodes :
  tree_path done ds ps v nodes → v ∈ nodes.
Proof.
  intros [|]; [by apply list_elem_of_singleton|].
  apply elem_of_app. right. by apply list_elem_of_singleton.
Qed.

Lemma tree_path_nodes done ds ps v nodes :
  tree_path done ds ps v nodes → ∀ y, y ∈ nodes → y = v ∨ y ∈ done.
Proof.
  induction 1 as [|u v nodes a x du Hu IH Hdone Hnot He Hp Hdu Hdv]; intros y.
  - intros ->%list_elem_of_singleton. by left.
  - intros [Hy| ->%list_elem_of_singleton]%elem_of_app; [|by left].
    right. destruct (IH y Hy) as [->|]; done.
Qed.

Lemma tree_path_mono done done' ds ps v nodes :
  (∀ y, y ∈ done → y ∈ done') →
  tree_path done ds ps v nodes → tree_path done' ds ps v nodes.
Proof.
  intros Hsub. induction 1; [constructor|]. econstructor; eauto.
Qed.

Lemma tree_path_insert done ds ps t nodes v d p :
  tree_path done ds ps t nodes → v ∉ nodes →
  tree_path done (<[v := d]> ds) (<[v := p]> ps) t nodes.
Proof.
  induction 1 as [|u t nodes a x du Hu IH Hdone Hnot He Hp Hdu Hdt];
    intros Hv; [constructor|].
  rewrite not_elem_of_app, list_elem_of_singleton in Hv. destruct Hv as [Hv Hvt].
  assert (v ≠ u).
  { intros ->. apply Hv. by eapply tree_path_last. }
  econstructor; eauto; by rewrite list_lookup_insert_ne.
Qed.

Lemma tree_path_NoDup done ds ps v nodes :
  tree_path done ds ps v nodes → NoDup nodes.
Proof.
  induction 1; [apply NoDup_singleton|].
  apply NoDup_app. repeat split; [done| |apply NoDup_singleton].
  intros y Hy ->%list_elem_of_singleton. done.
Qed.

Lemma tree_path_lt done ds ps v nodes :
  src < length adj → closed_graph adj →
  tree_path done ds ps v nodes → ∀ y, y ∈ nodes → y < length adj.
Proof.
  intros Hsrc Hclosed.
  induction 1 as [|u v nodes a x du Hu IH Hdone Hnot He Hp Hdu Hdv]; intros y.
  - by intros ->%list_elem_of_singleton.
  - intros [Hy| ->%list_elem_of_singleton]%elem_of_app; [by apply IH|].
    by eapply Hclosed.
Qed.

Lemma NoDup_lt_length (l : list nat) n :
  NoDup l → (∀ y, y ∈ l → y < n) → length l ≤ n.
Proof.
  intros Hnd Hlt.
  assert (Hsub : l ⊆+ seq 0 n).
  { apply NoDup_submseteq; [done|]. intros y Hy. apply elem_of_seq.
    specialize (Hlt y Hy). lia. }
  apply submseteq_length in Hsub. by rewrite length_seq in Hsub.
Qed.

Lemma tree_path_length done ds ps v nodes :
  src < length adj → closed_graph adj →
  tree_path done ds ps v nodes → length nodes ≤ length adj.
Proof.
  intros Hsrc Hclosed Ht. apply NoDup_lt_length.
  - by eapply tree_path_NoDup.
  - by eapply tree_path_lt.
Qed.

(** The links to a node are a path of the graph whose weight is the
    distance recorded for the node. *)
Lemma tree_path_is_path done ds ps v nodes :
  src < length adj → ds !! src = Some (Fin 0) →
  tree_path done ds ps v nodes →
  ∃ dv, ds !! v = Some (Fin dv) ∧ is_path adj src nodes v (Fin dv).
Proof.
  intros Hsrc H0.
  induction 1 as [|u v nodes a x du Hu IH Hdone Hnot He Hp Hdu Hdv].
  - exists 0%Z. split; [done|]. by constructor.
  - destruct IH as (du' & Hdu' & Hpath).
    assert (du' = du) as -> by congruence.
    exists (du + x)%Z. split; [done|].
    change (Fin (du + x)) with (fadd (Fin du) (Fin x)). by econstructor.
Qed.

End TreePath.

(** On non-negative weights the weight of a path is a number, not negative. *)
Lemma is_path_Fin adj s nodes v W :
  nonneg_weights adj → is_path adj s nodes v W → ∃ x, W = Fin x ∧ (0 ≤ x)%Z.
Proof.
  intros Hnn. induction 1 as [|nodes u v w a W Hp IH He].
  - exists 0%Z. split; [done|lia].
  - destruct IH as (x & -> & Hx). apply Hnn in He as (y & -> & Hy).
    exists (x + y)%Z. split; [done|lia].
Qed.

Lemma is_path_lt adj s nodes v W :
  closed_graph adj → is_path adj s nodes v W → v < length adj.
Proof. intros Hc. destruct 1; [done|]. by eapply Hc. Qed.


(** *** The loop *)

Section Loop.
Context {P : Type} (record : nat → option string → P).
Variables (adj : list (list Edge)) (src : nat).
Hypothesis Hnonneg : nonneg_weights adj.
Hypothesis Hclosed : closed_graph adj.

Local Abbreviation tree_path := (tree_path record adj src).
Local Abbreviation Inv := (Inv record adj src).
Local Abbreviation Final := (Final record adj src).

(** One edge of the inner loop. *)
Lemma relax_step done du u e es st :
  Inv done du u (e :: es) st → u ∈ done → dist st !! u = Some (Fin du) →
  edge_in adj u e →
  ∃ st', relax record (Fin du) u st e = Ok st' ∧ Inv done du u es st' ∧
    dist st' !! u = Some (Fin du) ∧ length (heap st') ≤ S (length (heap st)).
Proof.
  intros [Hld Hlp Hsd Hsp Hshape Htree Hrel Hdone Hbound Hfront Hheap Hsorted Hb0]
    Hu Hdu He.
  destruct e as [[v w] a].
  destruct (Hnonneg _ _ _ _ He) as (x & -> & Hx).
  pose proof (Hclosed _ _ _ _ He) as Hv.
  destruct (lookup_lt_is_Some_2 (dist st) v) as [dv Hdv]; [lia|].
  assert (Hdu0 : (0 ≤ du)%Z).
  { destruct (Hshape u _ Hdu) as [?|(? & [= <-] & ?)]; done. }
  unfold relax, list_get, list_set. cbv beta iota. rewrite Hdv. unbind.
  change (fadd (Fin du) (Fin x)) with (Fin (du + x)%Z).
  destruct (flt (Fin (du + x)) dv) eqn:Hlt.
  - assert (Hold : ∀ dv', dist st !! v = Some (Fin dv') → (du + x < dv')%Z).
    { intros dv' Hdv'. rewrite Hdv in Hdv'. injection Hdv' as ->.
      simpl in Hlt. by apply Z.ltb_lt. }
    assert (Hvdone : v ∉ done).
    { intros Hin. destruct (Hdone v Hin) as (dv' & Hdv' & Hle).
      apply Hold in Hdv'. lia. }
    assert (Hvu : v ≠ u) by (intros ->; done).
    assert (Hvsrc : v ≠ src).
    { intros ->. apply Hold in Hsd. lia. }
    destruct (decide (v < length (dist st))) as [_|]; [|lia].
    destruct (decide (v < length (prev st))) as [_|]; [|lia].
    eexists. split; [reflexivity|]. split; [|split].
    + constructor; simpl.
      * by rewrite length_insert.
      * by rewrite length_insert.
      * by rewrite list_lookup_insert_ne.
      * by rewrite list_lookup_insert_ne.
      * intros v' d. destruct (decide (v' = v)) as [->|Hne].
        -- rewrite list_lookup_insert_eq by lia. intros [= <-].
           right. eexists. split; [done|lia].
        -- rewrite list_lookup_insert_ne by done. apply Hshape.
      * intros v' x'. destruct (decide (v' = v)) as [->|Hne].
        -- intros _. destruct (Htree u du Hdu) as [nodes Hn].
           assert (Hvn : v ∉ nodes).
           { intros Hin.
             destruct (tree_path_nodes _ _ _ _ _ _ _ _ Hn v Hin) as [->|?]; done. }
           exists (nodes ++ [v]).
           apply (tree_step record adj src _ _ _ u v nodes a x du); try done.
           ++ by apply tree_path_insert.
           ++ by rewrite list_lookup_insert_eq by lia.
           ++ by rewrite list_lookup_insert_ne.
           ++ by rewrite list_lookup_insert_eq by lia.
        -- rewrite list_lookup_insert_ne by done. intros Hv'.
           destruct (Htree v' x' Hv') as [nodes Hn]. exists nodes.
           apply tree_path_insert; [done|]. intros Hin.
           destruct (tree_path_nodes _ _ _ _ _ _ _ _ Hn v Hin) as [->|?]; done.
      * intros u' v' x' a' Hu' He'.
        assert (u' ≠ v) by (intros ->; done).
        destruct (Hrel u' v' x' a' Hu' He') as [[-> Hin]|(du' & dv' & H1 & H2 & H3)].
        -- apply elem_of_cons in Hin as [Heq|Hin]; [|by left].
           injection Heq as -> -> ->. right. exists du, (du + x)%Z.
           rewrite list_lookup_insert_ne by done.
           rewrite list_lookup_insert_eq by lia. split; [done|]. split; [done|lia].
        -- right. destruct (decide (v' = v)) as [->|Hne].
           ++ exists du', (du + x)%Z.
              rewrite list_lookup_insert_ne by done.
              rewrite list_lookup_insert_eq by lia.
              apply Hold in H2. split; [done|]. split; [done|lia].
           ++ exists du', dv'. by rewrite !list_lookup_insert_ne.
      * intros u' Hu'. assert (u' ≠ v) by (intros ->; done).
        rewrite list_lookup_insert_ne by done. by apply Hdone.
      * intros k v' [[= -> ->]|Hin]%elem_of_heappush; [|by eapply Hbound].
        eexists. split; [done|lia].
      * intros v' x' Hnd Hv'. apply elem_of_heappush.
        destruct (decide (v' = v)) as [->|Hne].
        -- left. rewrite list_lookup_insert_eq in Hv' by lia. congruence.
        -- right. rewrite list_lookup_insert_ne in Hv' by done. by apply Hfront.
      * intros k v' [[= -> ->]|Hin]%elem_of_heappush.
        -- exists (du + x)%Z, (du + x)%Z.
           rewrite list_lookup_insert_eq by lia. split; [done|]. split; [done|lia].
        -- destruct (Hheap k v' Hin) as (kx & dv' & -> & Hd & Hle).
           destruct (decide (v' = v)) as [->|Hne].
           ++ exists kx, (du + x)%Z. rewrite list_lookup_insert_eq by lia.
              apply Hold in Hd. split; [done|]. split; [done|lia].
           ++ exists kx, dv'. by rewrite list_lookup_insert_ne.
      * apply heappush_sorted; [|done]. apply Forall_forall.
        intros [k v'] Hin. destruct (Hheap k v' Hin) as (kx & _ & -> & _).
        by exists kx.
      * done.
    + simpl. by rewrite list_lookup_insert_ne.
    + simpl. by rewrite length_heappush.
  - assert (∃ dvx, dv = Fin dvx ∧ (dvx ≤ du + x)%Z) as (dvx & -> & Hle).
    { destruct (Hshape v dv Hdv) as [->|(dvx & -> & _)]; [done|].
      exists dvx. split; [done|]. simpl in Hlt. by apply Z.ltb_ge. }
    exists st. split; [done|]. split; [|split; [done|lia]].
    constructor; try done.
    intros u' v' x' a' Hu' He'.
    destruct (Hrel u' v' x' a' Hu' He') as [[-> Hin]|H]; [|by right].
    apply elem_of_cons in Hin as [Heq|Hin]; [|by left].
    injection Heq as -> -> ->. right. by exists du, dvx.
Qed.

(** The inner loop, over the edges of the node being expanded. *)
Lemma relax_all done du u edges st :
  Inv done du u edges st → u ∈ done → dist st !! u = Some (Fin du) →
  (∀ e, e ∈ edges → edge_in adj u e) →
  ∃ st', foldM (relax record (Fin du) u) st edges = Ok st' ∧
    Inv done du u [] st' ∧
    length (heap st') ≤ length (heap st) + length edges.
Proof.
  revert st. induction edges as [|e es IH]; intros st HI Hu Hdu Hedges; simpl.
  - exists st. split; [done|]. split; [done|lia].
  - destruct (relax_step done du u e es st HI Hu Hdu) as (st1 & -> & HI1 & Hdu1 & Hl1).
    { apply Hedges. by left. }
    destruct (IH st1 HI1 Hu Hdu1) as (st2 & H2 & HI2 & Hl2).
    { intros e' He'. apply Hedges. by right. }
    exists st2. unbind. split; [done|]. split; [done|lia].
Qed.

(** The inner loop changes nothing when every edge is relaxed already. *)
Lemma relax_noop u du edges (st : state P) :
  (∀ v w a, (v, w, a) ∈ edges →
     ∃ x dv, w = Fin x ∧ dist st !! v = Some (Fin dv) ∧ (dv ≤ du + x)%Z) →
  foldM (relax record (Fin du) u) st edges = Ok st.
Proof.
  induction edges as [|[[v w] a] es IH]; intros Hall; simpl; [done|].
  destruct (Hall v w a) as (x & dv & -> & Hdv & Hle); [by left|].
  unfold relax, list_get. rewrite Hdv. unbind. simpl.
  destruct (Z.ltb_spec (du + x) dv); [lia|].
  apply IH. intros v' w' a' Hin. apply (Hall v' w' a'). by right.
Qed.


(** Popping an item that is stale, or whose node is done already. *)
Lemma inv_pop_skip done b u0 st d u h' :
  Inv done b u0 [] st → heap st = (d, u) :: h' →
  (dist st !! u = Some d → u ∈ done) →
  Inv done b u0 [] (mkState (dist st) (prev st) h').
Proof.
  intros [Hld Hlp Hsd Hsp Hshape Htree Hrel Hdone Hbound Hfront Hheap Hsorted Hb0]
    Hh Hskip.
  rewrite Hh in *. constructor; simpl; try done.
  - intros k v Hin. apply (Hbound k v). by right.
  - intros v x Hv Hx. specialize (Hfront v x Hv Hx).
    apply elem_of_cons in Hfront as [[= <- <-]|?]; [|done].
    exfalso. by apply Hv, Hskip.
  - intros k v Hin. apply Hheap. by right.
  - by apply StronglySorted_inv in Hsorted as [? _].
Qed.

(** Popping the item of a node that is expanded next. *)
Lemma inv_pop_expand done b u0 st du u h' edges :
  Inv done b u0 [] st → heap st = (Fin du, u) :: h' →
  dist st !! u = Some (Fin du) → adj !! u = Some edges →
  Inv (u :: done) du u edges (mkState (dist st) (prev st) h').
Proof.
  intros [Hld Hlp Hsd Hsp Hshape Htree Hrel Hdone Hbound Hfront Hheap Hsorted Hb0]
    Hh Hdu Hedges.
  rewrite Hh in *.
  destruct (Hbound (Fin du) u) as (? & [= <-] & Hbdu); [by left|].
  apply StronglySorted_inv in Hsorted as [Hsorted Hmin].
  constructor; simpl; try done.
  - intros v x Hv. destruct (Htree v x Hv) as [nodes Hn]. exists nodes.
    eapply tree_path_mono; [|exact Hn]. intros y Hy. by right.
  - intros u' v x a [->|Hu']%elem_of_cons He.
    + left. split; [done|]. destruct He as (row & Hrow & Hin).
      rewrite Hedges in Hrow. by injection Hrow as <-.
    + destruct (Hrel u' v x a Hu' He) as [[_ Hin]|?]; [|by right].
      by apply elem_of_nil in Hin.
  - intros u' [->|Hu']%elem_of_cons.
    + exists du. split; [done|lia].
    + destruct (Hdone u' Hu') as (du' & ? & ?). exists du'. split; [done|lia].
  - intros k v Hin. rewrite Forall_forall in Hmin.
    destruct (Hmin _ Hin) as (a & kx & [= <-] & Hk & Hle). simpl in Hk.
    by exists kx.
  - intros v x Hv Hx. apply not_elem_of_cons in Hv as [Hvu Hv].
    specialize (Hfront v x Hv Hx).
    apply elem_of_cons in Hfront as [[= _ ?]|?]; done.
  - intros k v Hin. apply Hheap. by right.
  - lia.
Qed.

(** A path from the source either ends in a node that is done, whose
    distance is then at most the weight of the path, or goes through a node
    that is not done and whose distance is at most that weight. *)
Lemma frontier done b u0 st nodes v Wf :
  Inv done b u0 [] st → is_path adj src nodes v Wf →
  ∃ W, Wf = Fin W ∧
    ((v ∈ done ∧ (∃ dv, dist st !! v = Some (Fin dv) ∧ (dv ≤ W)%Z)) ∨
     (∃ y dy, (y ∉ done) ∧ dist st !! y = Some (Fin dy) ∧ (dy ≤ W)%Z)).
Proof.
  intros [Hld Hlp Hsd Hsp Hshape Htree Hrel Hdone Hbound Hfront Hheap Hsorted Hb0].
  induction 1 as [|nodes u v w a W0 Hp IH He].
  - exists 0%Z. split; [done|]. destruct (decide (src ∈ done)).
    + left. split; [done|]. by exists 0%Z.
    + right. by exists src, 0%Z.
  - destruct IH as (W & -> & IH). destruct (Hnonneg _ _ _ _ He) as (x & -> & Hx).
    exists (W + x)%Z. split; [done|].
    destruct IH as [(Hu & du & Hdu & Hle)|(y & dy & Hy & Hdy & Hle)].
    + destruct (Hrel u v x a Hu He) as [[_ Hin]|(du' & dv & Hdu' & Hdv & Hle')].
      { by apply elem_of_nil in Hin. }
      assert (du' = du) as -> by congruence.
      destruct (decide (v ∈ done)).
      * left. split; [done|]. exists dv. split; [done|lia].
      * right. exists v, dv. split; [done|]. split; [done|lia].
    + right. exists y, dy. split; [done|]. split; [done|lia].
Qed.

Lemma final_of_empty done b u0 st dst :
  Inv done b u0 [] st → heap st = [] → Final dst st.
Proof.
  intros HI Hh. pose proof HI as
    [Hld Hlp Hsd Hsp Hshape Htree Hrel Hdone Hbound Hfront Hheap Hsorted Hb0].
  constructor; try done.
  - intros v x Hv. exists done. by apply (Htree v x).
  - intros nodes W Hp.
    destruct (frontier _ _ _ _ _ _ _ HI Hp)
      as (W' & [= <-] & [(_ & dv & Hdv & Hle)|(y & dy & Hy & Hdy & Hle)]).
    + by exists dv.
    + specialize (Hfront y dy Hy Hdy). rewrite Hh in Hfront.
      by apply elem_of_nil in Hfront.
Qed.

Lemma final_of_break done b u0 st dst dx h' :
  Inv done b u0 [] st → heap st = (Fin dx, dst) :: h' →
  dist st !! dst = Some (Fin dx) →
  Final dst (mkState (dist st) (prev st) h').
Proof.
  intros HI Hh Hdst. pose proof HI as
    [Hld Hlp Hsd Hsp Hshape Htree Hrel Hdone Hbound Hfront Hheap Hsorted Hb0].
  constructor; simpl; try done.
  - intros v x Hv. exists done. by apply (Htree v x).
  - intros nodes W Hp. exists dx. split; [done|].
    destruct (frontier _ _ _ _ _ _ _ HI Hp)
      as (W' & [= <-] & [(_ & dv & Hdv & Hle)|(y & dy & Hy & Hdy & Hle)]).
    + assert (dv = dx) as -> by congruence. done.
    + specialize (Hfront y dy Hy Hdy). rewrite Hh in Hfront, Hsorted.
      apply StronglySorted_inv in Hsorted as [_ Hmin].
      apply elem_of_cons in Hfront as [[= -> ->]|Hin]; [done|].
      rewrite Forall_forall in Hmin.
      destruct (Hmin _ Hin) as (a & k & [= <-] & [= <-] & ?). lia.
Qed.

(** The loop: it raises nothing; it ends within the iterations counted by
    the heap and the edges still to be looked at; and it leaves [Final]. *)
Lemma search_loop_spec dst fuel :
  ∀ st done b u0, Inv done b u0 [] st →
    (search_loop record fuel adj dst st = OutOfFuel ∧
     fuel ≤ length (heap st) + pending_from done 0 adj) ∨
    (∃ st', search_loop record fuel adj dst st = Ok st' ∧ Final dst st').
Proof.
  induction fuel as [|fuel IH]; intros st done b u0 HI.
  { left. split; [done|lia]. }
  simpl. destruct (heap st) as [|[d u] h'] eqn:Hh.
  { right. exists st. split; [done|]. by eapply final_of_empty. }
  destruct (inv_heap _ _ _ _ _ _ _ _ HI d u) as (kx & dv & -> & Hdu & Hle).
  { rewrite Hh. by left. }
  unfold list_get. rewrite Hdu. unbind. unfold fgt. simpl flt.
  destruct (Z.ltb_spec dv kx) as [Hstale|Hfresh].
  { (* a stale item *)
    destruct (IH (mkState (dist st) (prev st) h') done b u0) as [[-> Hf]|Hok].
    - eapply inv_pop_skip; [done..|]. intros Heq. rewrite Hdu in Heq.
      injection Heq as ->. lia.
    - left. split; [done|]. simpl in *. lia.
    - by right. }
  assert (dv = kx) as -> by lia.
  destruct (Nat.eqb_spec u dst) as [->|Hne].
  { right. eexists. split; [done|]. by eapply final_of_break. }
  destruct (lookup_lt_is_Some_2 adj u) as [edges Hedges].
  { rewrite <- (inv_len_dist _ _ _ _ _ _ _ _ HI). by eapply lookup_lt_Some. }
  rewrite Hedges.
  destruct (decide (u ∈ done)) as [Hin|Hnotin].
  - (* the node was expanded before: nothing changes *)
    rewrite relax_noop.
    + destruct (IH (mkState (dist st) (prev st) h') done b u0) as [[-> Hf]|Hok].
      * by eapply inv_pop_skip.
      * left. split; [done|]. simpl in *. lia.
      * by right.
    + intros v w a Hv. simpl.
      assert (He : edge_in adj u (v, w, a)) by (by exists edges).
      destruct (Hnonneg _ _ _ _ He) as (x & -> & Hx). exists x.
      destruct (inv_relaxed _ _ _ _ _ _ _ _ HI u v x a Hin He)
        as [[_ Hnil]|(du' & dv & Hdu' & Hdv & Hle')].
      { by apply elem_of_nil in Hnil. }
      exists dv. assert (du' = kx) as -> by congruence. done.
  - (* the node is expanded *)
    pose proof (inv_pop_expand _ _ _ _ _ _ _ _ HI Hh Hdu Hedges) as HI1.
    destruct (relax_all (u :: done) kx u edges _ HI1) as (st2 & -> & HI2 & Hl2).
    { by left. }
    { done. }
    { intros e He. by exists edges. }
    simpl in Hl2.
    destruct (IH st2 (u :: done) kx u HI2) as [[-> Hf]|Hok]; [|by right].
    left. split; [done|].
    pose proof (pending_from_done done 0 adj u edges Hedges Hnotin). simpl in *.
    lia.
Qed.

(** The state the loop starts from. *)
Lemma inv_init :
  src < length adj →
  Inv [] 0 0 []
    (mkState (<[src := Fin 0]> (replicate (length adj) PInf))
             (replicate (length adj) None) [(Fin 0, src)]).
Proof.
  intros Hsrc.
  assert (Hfin : ∀ v x,
    <[src := Fin 0]> (replicate (length adj) PInf) !! v = Some (Fin x) →
    v = src ∧ x = 0%Z).
  { intros v x. destruct (decide (v = src)) as [->|Hne].
    - rewrite list_lookup_insert_eq by (by rewrite length_replicate).
      by intros [= <-].
    - rewrite list_lookup_insert_ne by done.
      by intros [? _]%lookup_replicate. }
  constructor; simpl.
  - by rewrite length_insert, length_replicate.
  - by rewrite length_replicate.
  - by rewrite list_lookup_insert_eq by (by rewrite length_replicate).
  - by apply lookup_replicate.
  - intros v d. destruct (decide (v = src)) as [->|Hne].
    + rewrite list_lookup_insert_eq by (by rewrite length_replicate).
      intros [= <-]. right. by exists 0%Z.
    + rewrite list_lookup_insert_ne by done.
      intros [-> _]%lookup_replicate. by left.
  - intros v x [-> ->]%Hfin. exists [src]. constructor.
  - intros u' v x a Hu'. by apply elem_of_nil in Hu'.
  - intros u' Hu'. by apply elem_of_nil in Hu'.
  - intros k v [= -> ->]%list_elem_of_singleton. by exists 0%Z.
  - intros v x _ [-> ->]%Hfin. by apply list_elem_of_singleton.
  - intros k v [= -> ->]%list_elem_of_singleton. exists 0%Z, 0%Z.
    split; [done|]. split; [|done].
    by rewrite list_lookup_insert_eq by (by rewrite length_replicate).
  - repeat constructor.
  - done.
Qed.

(** The search up to the end of its loop. *)
Lemma search_spec fuel dst :
  src < length adj →
  (search record fuel adj src dst = OutOfFuel ∧ fuel ≤ length (concat adj) + 1) ∨
  (∃ st, search record fuel adj src dst = Ok st ∧ Final dst st).
Proof.
  intros Hsrc. unfold search, list_set. rewrite length_replicate.
  destruct (decide (src < length adj)) as [_|]; [|done]. unbind.
  destruct (search_loop_spec dst fuel _ _ _ _ (inv_init Hsrc)) as [[-> Hf]|Hok];
    [|by right].
  left. split; [done|]. simpl in Hf. rewrite pending_from_nil in Hf. lia.
Qed.

End Loop.


(** *** Rebuilding the path *)

Section Route.
Variables (adj : list (list Edge)) (src : nat).

(** What [prev] records in each of the two searches. *)
Local Abbreviation aware := (λ (u : nat) (airline : option string), (u, airline)).
Local Abbreviation plain := (λ (u : nat) (_ : option string), u).

Lemma tree_path_ends {P} (record : nat → option string → P) done ds ps v nodes :
  tree_path record adj src done ds ps v nodes →
  head nodes = Some src ∧ ∃ pre, nodes = pre ++ [v].
Proof.
  induction 1 as [|u v nodes a x du Hu IH Hdone Hnot He Hp Hdu Hdv].
  - split; [done|]. by exists [].
  - destruct IH as [Hhd _]. split; [|by exists nodes].
    destruct nodes; [done|]. done.
Qed.

Lemma walk_back_spec done ds ps v nodes :
  tree_path aware adj src done ds ps v nodes → ps !! src = Some None →
  ∀ fuel acc,
    (walk_back fuel ps v acc = OutOfFuel ∧ fuel < length nodes) ∨
    walk_back fuel ps v acc = Ok (acc ++ reverse nodes).
Proof.
  intros Ht Hsrc.
  induction Ht as [|u v nodes a x du Hu IH Hdone Hnot He Hp Hdu Hdv];
    intros [|fuel] acc; simpl.
  - left. split; [done|lia].
  - right. unfold list_get. by rewrite Hsrc.
  - left. split; [done|]. rewrite length_app. simpl. lia.
  - unfold list_get. rewrite Hp. unbind.
    destruct (IH fuel (acc ++ [v])) as [[-> Hf]| ->].
    + left. split; [done|]. rewrite length_app. simpl. lia.
    + right. by rewrite reverse_snoc, <- app_assoc.
Qed.


Lemma path_cities_of_snoc i2c nodes v cs c :
  path_cities_of i2c nodes = Ok cs → i2c !! v = Some c →
  path_cities_of i2c (nodes ++ [v]) = Ok (cs ++ [c]).
Proof.
  intros H Hv. revert cs H. induction nodes as [|i nodes IH]; intros cs; simpl.
  - intros [= <-]. unfold dict_get. by rewrite Hv.
  - unbind. destruct (dict_get i2c i) as [ci| |]; [|done|done].
    destruct (path_cities_of i2c nodes) as [cs'| |]; [|done|done].
    intros [= <-]. by rewrite (IH cs' eq_refl).
Qed.

Lemma segments_of_cons2 ps i2c u v rest :
  segments_of ps i2c (u :: v :: rest)
  = (pv ← list_get ps v;
     match pv with
     | None => Raise TypeError
     | Some (_, airline) =>
         cu ← dict_get i2c u;
         cv ← dict_get i2c v;
         segs ← segments_of ps i2c (v :: rest);
         Ok ((cu, cv, airline) :: segs)
     end).
Proof. reflexivity. Qed.

Lemma segments_of_snoc ps i2c l u v p a cu cv segs :
  segments_of ps i2c (l ++ [u]) = Ok segs →
  ps !! v = Some (Some (p, a)) → i2c !! u = Some cu → i2c !! v = Some cv →
  segments_of ps i2c ((l ++ [u]) ++ [v]) = Ok (segs ++ [(cu, cv, a)]).
Proof.
  intros H Hv Hcu Hcv. revert segs H.
  induction l as [|n l IH]; intros segs.
  - simpl. intros [= <-]. unfold list_get, dict_get.
    rewrite Hv, Hcu, Hcv. done.
  - change ((n :: l) ++ [u]) with (n :: (l ++ [u])).
    change ((n :: l ++ [u]) ++ [v]) with (n :: ((l ++ [u]) ++ [v])).
    destruct (l ++ [u]) as [|m rest] eqn:Hl.
    { by destruct l. }
    change ((m :: rest) ++ [v]) with (m :: (rest ++ [v])) in *.
    rewrite !segments_of_cons2. unbind.
    destruct (list_get ps m) as [[[pm am]|]| |]; try done.
    destruct (dict_get i2c n) as [cn| |]; [|done|done].
    destruct (dict_get i2c m) as [cm| |]; [|done|done].
    destruct (segments_of ps i2c (m :: rest)) as [segs0| |] eqn:H0; [|done|done].
    intros [= <-]. by rewrite (IH segs0 eq_refl).
Qed.

Lemma legs_total_snoc c2i legs leg :
  legs_total adj c2i (legs ++ [leg])
  = (t ← legs_total adj c2i legs; w ← leg_weight adj c2i leg; Some (fadd t w)).
Proof. unfold legs_total. by rewrite foldl_app. Qed.

Lemma edge_weight_unique u v w a :
  edge_in adj u (v, w, a) →
  (∀ w', edge_in adj u (v, w', a) → w' = w) →
  edge_weight adj u v a = Some w.
Proof.
  intros (row & Hrow & Hin) Huniq. unfold edge_weight, Edge in *.
  rewrite Hrow. simpl.
  remember (filter (λ e : nat * pyfloat * option string, e.1.1 = v ∧ e.2 = a) row)
    as fl eqn:Hf.
  assert (Hin' : (v, w, a) ∈ fl) by (subst fl; by apply list_elem_of_filter).
  assert (Hsub : ∀ e, e ∈ fl → (e.1.1 = v ∧ e.2 = a) ∧ e ∈ row).
  { subst fl. intros e He. by apply list_elem_of_filter in He. }
  clear Hf. destruct fl as [|e rest]; [by apply elem_of_nil in Hin'|].
  simpl. f_equal. destruct (Hsub e) as [[H1 H2] He]; [by left|].
  destruct e as [[v' w'] a']. simpl in *. subst.
  apply Huniq. by exists row.
Qed.

End Route.


(** *** The two searches on a well-formed graph *)

Section Results.
Variables (adj : list (list Edge)) (c2i : gmap string nat) (i2c : gmap nat string).
Hypothesis Hnonneg : nonneg_weights adj.
Hypothesis Hindex : ∀ c i, c2i !! c = Some i → i < length adj ∧ i2c !! i = Some c.
Hypothesis Hnamed : ∀ i j w a, edge_in adj i (j, w, a) → ∃ c, c2i !! c = Some j.
Hypothesis Hunique :
  ∀ i j w w' a, edge_in adj i (j, w, a) → edge_in adj i (j, w', a) → w = w'.

Local Abbreviation aware := (λ (u : nat) (airline : option string), (u, airline)).
Local Abbreviation plain := (λ (u : nat) (_ : option string), u).

(** A node with its name. *)
Definition named (i : nat) (c : string) : Prop :=
  i2c !! i = Some c ∧ c2i !! c = Some i.

Lemma closed_of_named : closed_graph adj.
Proof.
  intros i j w a He. destruct (Hnamed _ _ _ _ He) as [c Hc].
  by apply Hindex in Hc as [? _].
Qed.

Lemma named_of_index c i : c2i !! c = Some i → named i c.
Proof. intros H. split; [by apply Hindex|done]. Qed.

Lemma tree_path_named {P} (record : nat → option string → P) src done ds ps v nodes :
  (∃ c, c2i !! c = Some src) →
  tree_path record adj src done ds ps v nodes →
  ∀ y, y ∈ nodes → ∃ c, named y c.
Proof.
  intros [c0 Hc0].
  induction 1 as [|u v nodes a x du Hu IH Hdone Hnot He Hp Hdu Hdv]; intros y.
  - intros ->%list_elem_of_singleton. exists c0. by apply named_of_index.
  - intros [Hy| ->%list_elem_of_singleton]%elem_of_app; [by apply IH|].
    destruct (Hnamed _ _ _ _ He) as [c Hc]. exists c. by apply named_of_index.
Qed.

Lemma path_cities_of_Ok nodes :
  (∀ y, y ∈ nodes → ∃ c, named y c) →
  ∃ cs, path_cities_of i2c nodes = Ok cs ∧ Forall2 named nodes cs.
Proof.
  induction nodes as [|i nodes IH]; intros Hall; simpl.
  - exists []. by split.
  - destruct (Hall i) as [c Hc]; [by left|].
    destruct IH as (cs & -> & HF). { intros y Hy. apply Hall. by right. }
    exists (c :: cs). unfold dict_get. rewrite (proj1 Hc). split; [done|].
    by constructor.
Qed.

(** The cities and the legs that [dijkstra_airline_aware] builds from the
    predecessor links of a node. *)
Lemma route_spec src done ds ps v nodes :
  (∃ c, c2i !! c = Some src) → ds !! src = Some (Fin 0) →
  tree_path aware adj src done ds ps v nodes →
  ∃ cities legs dv,
    path_cities_of i2c nodes = Ok cities ∧
    segments_of ps i2c nodes = Ok legs ∧
    ds !! v = Some (Fin dv) ∧
    legs_total adj c2i legs = Some (Fin dv) ∧
    Forall2 named nodes cities ∧
    (∀ k leg, legs !! k = Some leg →
       cities !! k = Some leg.1.1 ∧ cities !! S k = Some leg.1.2) ∧
    length cities = S (length legs).
Proof.
  intros [c0 Hc0] H0.
  induction 1 as [|u v nodes a x du Hu IH Hdone Hnot He Hp Hdu Hdv].
  - exists [c0], [], 0%Z. simpl. unfold dict_get.
    rewrite (proj2 (Hindex _ _ Hc0)).
    repeat split; try done.
    repeat constructor; [by apply Hindex|done].
  - destruct IH as (cities & legs & du' & Hcs & Hsegs & Hdu' & Htot & HF & Hlegs & Hlen).
    assert (du' = du) as -> by congruence.
    destruct (tree_path_ends _ _ _ _ _ _ _ _ Hu) as [_ [pre ->]].
    destruct (Hnamed _ _ _ _ He) as [cv Hcv]. apply named_of_index in Hcv.
    pose proof HF as HlenF. apply Forall2_length in HlenF.
    rewrite length_app in HlenF. simpl in HlenF.
    assert (Hpre : length pre = length legs) by lia.
    destruct (Forall2_lookup_l _ _ _ (length pre) u HF) as (cu & Hcu & Hnu).
    { by rewrite list_lookup_middle. }
    exists (cities ++ [cv]), (legs ++ [(cu, cv, a)]), (du + x)%Z.
    split; [by apply path_cities_of_snoc; [|apply Hcv]|].
    split; [by eapply segments_of_snoc; [| |apply Hnu|apply Hcv]|].
    split; [done|]. split; [|split; [|split]].
    + rewrite legs_total_snoc, Htot. simpl. unfold leg_weight. simpl.
      rewrite (proj2 Hnu), (proj2 Hcv). simpl.
      rewrite (edge_weight_unique adj u v (Fin x) a He); [done|].
      intros w' He'. by eapply Hunique.
    + apply Forall2_app; [done|]. constructor; [done|constructor].
    + intros k leg Hk.
      destruct (decide (k < length legs)) as [Hlt|Hge].
      * rewrite lookup_app_l in Hk by done.
        destruct (Hlegs k leg Hk) as [H1 H2].
        rewrite !lookup_app_l by lia. done.
      * assert (k = length legs) as ->.
        { apply lookup_lt_Some in Hk. rewrite length_app in Hk. simpl in Hk. lia. }
        rewrite list_lookup_middle in Hk by done. injection Hk as <-. simpl.
        split.
        -- rewrite lookup_app_l by lia. by rewrite <- Hpre.
        -- by rewrite list_lookup_middle.
    + rewrite !length_app. simpl. lia.
Qed.

Lemma Forall2_named_ends nodes cities src dst pre source dest :
  Forall2 named nodes cities → head nodes = Some src → nodes = pre ++ [dst] →
  c2i !! source = Some src → c2i !! dest = Some dst →
  head cities = Some source ∧ last cities = Some dest.
Proof.
  intros HF Hhd -> Hs Hd. split.
  - destruct (pre ++ [dst]) as [|n ns]; [done|]. injection Hhd as ->.
    inversion HF as [|? c ? cs [Hn _] _]; subst. simpl.
    apply Hindex in Hs as [_ Hs]. congruence.
  - apply Forall2_app_inv_l in HF as (cs1 & cs2 & _ & H2 & ->).
    inversion H2 as [|? c ? cs [Hn _] Hnil]; subst.
    inversion Hnil; subst. rewrite last_snoc.
    apply Hindex in Hd as [_ Hd]. congruence.
Qed.

(** What [dijkstra_airline_aware] returns: it raises nothing; with
    [enough_fuel] it returns; [None] means that no path leads from the
    source to the destination; a result is a path of least weight, with its
    cities and its legs. *)
Lemma aware_spec fuel source dest airlines src dst :
  c2i !! source = Some src → c2i !! dest = Some dst →
  (dijkstra_airline_aware fuel adj c2i i2c source dest airlines = OutOfFuel ∧
   fuel < enough_fuel adj) ∨
  (dijkstra_airline_aware fuel adj c2i i2c source dest airlines = Ok None ∧
   ∀ nodes W, ¬ is_path adj src nodes dst W) ∨
  (∃ x nodes cities legs,
     dijkstra_airline_aware fuel adj c2i i2c source dest airlines
       = Ok (Some (Fin x, cities, legs)) ∧
     is_path adj src nodes dst (Fin x) ∧
     (∀ nodes' W, is_path adj src nodes' dst W → fle (Fin x) W = true) ∧
     Forall2 named nodes cities ∧
     legs_total adj c2i legs = Some (Fin x) ∧
     (∀ k leg, legs !! k = Some leg →
        cities !! k = Some leg.1.1 ∧ cities !! S k = Some leg.1.2) ∧
     length cities = S (length legs) ∧
     head cities = Some source ∧ last cities = Some dest).
Proof.
  intros Hs Hd. unfold dijkstra_airline_aware. rewrite Hs, Hd.
  pose proof (Hindex _ _ Hs) as [Hsrc _]. pose proof (Hindex _ _ Hd) as [Hdst _].
  destruct (search_spec aware adj src Hnonneg closed_of_named fuel dst Hsrc)
    as [[-> Hf]|(st & -> & HF)].
  { left. split; [reflexivity|]. unfold enough_fuel. lia. }
  unbind. destruct HF as [Hld Hlp Hsd Hsp Hshape Htree Hopt].
  destruct (lookup_lt_is_Some_2 (dist st) dst) as [d Hdd]; [lia|].
  unfold list_get. rewrite Hdd.
  destruct (Hshape dst d Hdd) as [->|(x & -> & Hx)].
  { right; left. split; [reflexivity|]. intros nodes W Hp.
    destruct (is_path_Fin _ _ _ _ _ Hnonneg Hp) as (W' & -> & _).
    destruct (Hopt nodes W' Hp) as (x & Hx & _). congruence. }
  simpl feq. cbv iota.
  destruct (Htree dst x Hdd) as (done & nodes & Ht).
  destruct (walk_back_spec adj src done _ _ _ _ Ht Hsp fuel []) as [[-> Hf]| ->].
  { left. split; [reflexivity|]. unfold enough_fuel.
    pose proof (tree_path_length _ _ _ _ _ _ _ _ Hsrc closed_of_named Ht). lia. }
  simpl. rewrite reverse_involutive.
  destruct (route_spec src done _ _ _ _ (ex_intro _ source Hs) Hsd Ht)
    as (cities & legs & dv & -> & -> & Hdv & Htot & HFn & Hlegs & Hlen).
  assert (dv = x) as -> by congruence.
  destruct (tree_path_is_path _ _ _ _ _ _ _ _ Hsrc Hsd Ht) as (x' & Hx' & Hp).
  assert (x' = x) as -> by congruence.
  destruct (tree_path_ends _ _ _ _ _ _ _ _ Ht) as [Hhd [pre Hpre]].
  destruct (Forall2_named_ends _ _ _ _ _ _ _ HFn Hhd Hpre Hs Hd) as [Hfirst Hlast].
  right; right. exists x, nodes, cities, legs.
  split; [reflexivity|]. split; [done|].
  split; [|repeat (split; [done|]); done].
  intros nodes' W Hp'.
  destruct (is_path_Fin _ _ _ _ _ Hnonneg Hp') as (W' & -> & _).
  destruct (Hopt nodes' W' Hp') as (x' & Hx'' & Hle).
  apply fle_Fin. assert (x' = x) as -> by congruence. done.
Qed.



End Results.


(** *** Built graphs *)

(** A check of [nonneg_weights] that computes. *)
Definition nonneg_weightsb (adj : list (list Edge)) : bool :=
  forallb (forallb (λ e : Edge,
    match e.1.2 with Fin x => (0 <=? x)%Z | _ => false end)) adj.

Lemma nonneg_weightsb_true adj : nonneg_weightsb adj = true → nonneg_weights adj.
Proof.
  unfold nonneg_weightsb. rewrite forallb_forall.
  intros H i j w a (row & Hrow & Hin).
  apply list_elem_of_lookup_2, list_elem_of_In, H in Hrow.
  rewrite forallb_forall in Hrow.
  apply list_elem_of_In, Hrow in Hin. simpl in Hin.
  destruct w as [x| | |]; try done. exists x. split; [done|]. by apply Z.leb_le.
Qed.

Lemma is_path_mono adjS adjT s nodes v W :
  length adjS = length adjT →
  (∀ i e, edge_in adjS i e → edge_in adjT i e) →
  is_path adjS s nodes v W → is_path adjT s nodes v W.
Proof.
  intros Hlen Hsub. induction 1; [constructor; lia|]. econstructor; eauto.
Qed.

Lemma aware_Some_keys fuel adj c2i i2c source dest airlines r :
  dijkstra_airline_aware fuel adj c2i i2c source dest airlines = Ok (Some r) →
  ∃ src dst, c2i !! source = Some src ∧ c2i !! dest = Some dst.
Proof.
  unfold dijkstra_airline_aware.
  destruct (c2i !! source) as [src|]; [|done].
  destruct (c2i !! dest) as [dst|]; [|done]. eauto.
Qed.

Section Built.
Variables (df : list Row) (airlines : list string).
Variables (adj : list (list Edge)) (c2i : gmap string nat) (i2c : gmap nat string).
Variable (df' : list Row).
Hypothesis Hbuilt : build_graph df airlines = Ok (adj, c2i, i2c, df').

Lemma built_index c i : c2i !! c = Some i → i < length adj ∧ i2c !! i = Some c.
Proof. by eapply build_graph_index. Qed.

Lemma built_named i j w a : edge_in adj i (j, w, a) → ∃ c, c2i !! c = Some j.
Proof. intros He. by eapply build_graph_edge_nodes in He as [_ ?]. Qed.

Lemma built_unique i j w w' a :
  edge_in adj i (j, w, a) → edge_in adj i (j, w', a) → w = w'.
Proof. by eapply build_graph_edge_weight_unique. Qed.

End Built.

(** *** The claims on the searches *)




(** C10: the airlines passed to [dijkstra_airline_aware] do not change what
    it returns. *)
Theorem C10_airlines_argument_unused fuel adj c2i i2c source dest al1 al2 :
  dijkstra_airline_aware fuel adj c2i i2c source dest al1
  = dijkstra_airline_aware fuel adj c2i i2c source dest al2.
Proof. reflexivity. Qed.






(** C9: for a city whose index is a node of the graph and maps back to the
    city, as in every graph that [build_graph] returns, the search from the
    city to itself returns distance zero, the city alone, and no leg. *)
Theorem C9_source_is_destination adj c2i i2c fuel city i al :
  c2i !! city = Some i → i < length adj → i2c !! i = Some city →
  0 < fuel →
  dijkstra_airline_aware fuel adj c2i i2c city city al
  = Ok (Some (Fin 0, [city], [])).
Proof.
  intros Hc Hi Hback Hfuel. destruct fuel as [|fuel]; [lia|].
  unfold dijkstra_airline_aware, search, list_set. rewrite Hc.
  rewrite length_replicate. destruct (decide (i < length adj)); [|done].
  unbind. simpl. unfold list_get.
  rewrite list_lookup_insert_eq by (by rewrite length_replicate).
  unfold fgt. simpl. rewrite Nat.eqb_refl. simpl.
  rewrite list_lookup_insert_eq by (by rewrite length_replicate). simpl.
  rewrite lookup_replicate_2 by done. simpl.
  unfold dict_get. by rewrite Hback.
Qed.


(** *** The claims on a table of two hubs and two cities *)

Definition hub_table : list Row :=
  [ mkRow "Doha" "Qatar" (Fin 25) (Fin 51) (Fin 0) (Fin 380) (Fin 320);
    mkRow "Dubai" "UAE" (Fin 25) (Fin 55) (Fin 380) (Fin 0) (Fin 130);
    mkRow "London" "UK" (Fin 51) (Fin 0) (Fin 5200) (Fin 5500) (Fin 5480);
    mkRow "Mumbai" "India" (Fin 19) (Fin 72) (Fin 2300) (Fin 1930) (Fin 1970) ].

Definition hub_names : list string := ["Doha"; "Dubai"; "London"; "Mumbai"].

(** The adjacency lists that [build_graph] returns, or none if it raises. *)
Definition graph_of (df : list Row) (airlines : list string) : list (list Edge) :=
  match build_graph df airlines with
  | Ok (adj, _, _, _) => adj
  | _ => []
  end.

Definition qatar_graph : list (list Edge) :=
  Eval vm_compute in graph_of hub_table ["Qatar Airways"].

Definition qatar_emirates_graph : list (list Edge) :=
  Eval vm_compute in graph_of hub_table ["Qatar Airways"; "Emirates"].

Lemma qatar_graph_built :
  build_graph hub_table ["Qatar Airways"]
  = Ok (qatar_graph, city_to_index_of hub_names, index_to_city_of hub_names,
        hub_table).
Proof. vm_compute. reflexivity. Qed.

Lemma qatar_emirates_graph_built :
  build_graph hub_table ["Qatar Airways"; "Emirates"]
  = Ok (qatar_emirates_graph, city_to_index_of hub_names,
        index_to_city_of hub_names, hub_table).
Proof. vm_compute. reflexivity. Qed.

Lemma qatar_graph_nonneg : nonneg_weights qatar_graph.
Proof. apply nonneg_weightsb_true. vm_compute. reflexivity. Qed.

Lemma qatar_emirates_graph_nonneg : nonneg_weights qatar_emirates_graph.
Proof. apply nonneg_weightsb_true. vm_compute. reflexivity. Qed.





Lemma C9_source_is_destination_witness :
  dijkstra_airline_aware 1 qatar_graph (city_to_index_of hub_names)
    (index_to_city_of hub_names) "London" "London" ["Qatar Airways"]
  = Ok (Some (Fin 0, ["London"], [])).
Proof.
  apply (C9_source_is_destination qatar_graph (city_to_index_of hub_names)
           (index_to_city_of hub_names) 1 "London" 2 ["Qatar Airways"]).
  - vm_compute. reflexivity.
  - vm_compute. lia.
  - vm_compute. reflexivity.
  - lia.
Defined.

End SearchFacts.

(** ** The cleaning step *)

Module LoaderFacts.
Import DataLoader.

(** What [drop_duplicates] compares. *)
Definition key (r : Row) : string * string := (City r, Country r).

(** Both coordinates are there. *)
Definition has_coords (r : Row) : Prop :=
  isna (Latitude r) = false ∧ isna (Longitude r) = false.

Lemma drop_duplicates_from_elem seen df r :
  r ∈ drop_duplicates_from seen df → r ∈ df ∧ key r ∉ seen.
Proof.
  revert seen. induction df as [|x df IH]; intros seen; simpl.
  - by intros ?%elem_of_nil.
  - destruct (decide ((City x, Country x) ∈ seen)) as [Hin|Hout].
    + intros [? ?]%IH. split; [by right|done].
    + intros [->|Hr]%elem_of_cons; [split; [by left|done]|].
      apply IH in Hr as [? Hk]. split; [by right|].
      intros ?. apply Hk. by right.
Qed.

Lemma drop_duplicates_from_NoDup seen df :
  NoDup (map key (drop_duplicates_from seen df)).
Proof.
  revert seen. induction df as [|x df IH]; intros seen; simpl.
  - constructor.
  - destruct (decide ((City x, Country x) ∈ seen)); [apply IH|].
    simpl. constructor; [|apply IH].
    intros (r & Hk & Hr)%list_elem_of_fmap.
    apply drop_duplicates_from_elem in Hr as [_ Hr]. apply Hr.
    apply elem_of_cons. left. unfold key in *. congruence.
Qed.

Lemma drop_duplicates_from_sublist seen df :
  drop_duplicates_from seen df `sublist_of` df.
Proof.
  revert seen. induction df as [|x df IH]; intros seen; simpl; [done|].
  destruct (decide _); [by apply sublist_cons|by apply sublist_skip].
Qed.

Lemma drop_duplicates_from_id seen df :
  NoDup (map key df) → (∀ r, r ∈ df → key r ∉ seen) →
  drop_duplicates_from seen df = df.
Proof.
  revert seen. induction df as [|x df IH]; intros seen; simpl; [done|].
  intros [Hx Hnd]%NoDup_cons Hseen.
  destruct (decide ((City x, Country x) ∈ seen)) as [Hin|_].
  { exfalso. by apply (Hseen x); [left|]. }
  f_equal. apply IH; [done|]. intros r Hr [Heq|Hin]%elem_of_cons.
  - apply Hx. apply list_elem_of_fmap. exists r.
    split; [unfold key in *; congruence|done].
  - by apply (Hseen r); [right|].
Qed.

(** The rows of a key that [drop_duplicates] keeps: the first one. *)
Lemma drop_duplicates_from_first seen df k :
  filter (λ r, key r = k) (drop_duplicates_from seen df)
  = if decide (k ∈ seen) then []
    else option_list (head (filter (λ r, key r = k) df)).
Proof.
  revert seen. induction df as [|x df IH]; intros seen; simpl.
  - by destruct (decide _).
  - rewrite (filter_cons _ x df).
    destruct (decide ((City x, Country x) ∈ seen)) as [Hin|Hout].
    + rewrite IH. destruct (decide (k ∈ seen)) as [|Hk]; [done|].
      destruct (decide (key x = k)) as [<-|]; done.
    + rewrite filter_cons, IH.
      destruct (decide (key x = k)) as [<-|Hne].
      * rewrite decide_True by (by left).
        by rewrite decide_False by done.
      * destruct (decide (k ∈ seen)) as [Hk|Hk].
        -- by rewrite decide_True by (by right).
        -- rewrite decide_False; [done|].
           intros [?|?]%elem_of_cons; [by apply Hne|done].
Qed.

Lemma dropna_elem df r : r ∈ dropna df ↔ has_coords r ∧ r ∈ df.
Proof. unfold dropna. apply list_elem_of_filter. Qed.

Lemma dropna_id df : Forall has_coords df → dropna df = df.
Proof.
  unfold dropna. induction 1 as [|x df Hx _ IH]; [done|].
  rewrite filter_cons, decide_True by done. by rewrite IH.
Qed.

Lemma clean_has_coords df : Forall has_coords (clean_airport_data df).
Proof.
  apply Forall_forall. intros r Hr.
  apply drop_duplicates_from_elem in Hr as [Hr _].
  by apply dropna_elem in Hr as [? _].
Qed.

(** X5: The cleaned table is a sub-sequence of the table (rows kept in their
    order, none altered) in which every row has both coordinates and no two
    rows have the same City and Country. *)
Theorem clean_airport_data_rows df :
  clean_airport_data df `sublist_of` df ∧
  Forall has_coords (clean_airport_data df) ∧
  NoDup (map key (clean_airport_data df)).
Proof.
  split; [|split].
  - etrans; [apply drop_duplicates_from_sublist|]. apply sublist_filter.
  - apply clean_has_coords.
  - apply drop_duplicates_from_NoDup.
Qed.

(** X6: Of the rows with both coordinates that share a City and Country, the
    cleaned table keeps the first and only that one. *)
Theorem clean_airport_data_keeps_first df k :
  filter (λ r, key r = k) (clean_airport_data df)
  = option_list (head (filter (λ r, key r = k) (dropna df))).
Proof.
  unfold clean_airport_data, drop_duplicates.
  rewrite drop_duplicates_from_first. rewrite decide_False; [done|].
  by intros ?%elem_of_nil.
Qed.

(** X7: Cleaning a cleaned table changes nothing. *)
Theorem clean_airport_data_idempotent df :
  clean_airport_data (clean_airport_data df) = clean_airport_data df.
Proof.
  unfold clean_airport_data at 1.
  rewrite dropna_id by apply clean_has_coords.
  apply drop_duplicates_from_id.
  - apply drop_duplicates_from_NoDup.
  - intros r _ ?%elem_of_nil. done.
Qed.

End LoaderFacts.

(** ** More on the route graph *)

Module GraphMore.
Import Rules RulesFacts DataLoader GraphBuilder GraphFacts.

(** One of the three names that [dist] and [airline_serves_city] treat as
    hubs. *)
Definition is_hub_name (c : string) : bool := mem c ["Doha"; "Dubai"; "Abu Dhabi"].

(** The set [set(cities)] of the city names of a table. *)
Definition city_set (df : list Row) : gset string := list_to_set (map City df).

Ltac unbind := unfold mbind, res_bind in *.

(** *** [build_graph] raises for an unsupported airline only *)

Lemma first_unsupported_None airlines :
  first_unsupported airlines = None ↔ all_supported airlines = true.
Proof.
  unfold first_unsupported, all_supported.
  induction airlines as [|a l IH]; [done|]. cbn [List.find forallb].
  destruct (mem a SUPPORTED_AIRLINES); cbn [negb andb]; [exact IH|].
  split; done.
Qed.

Lemma first_unsupported_Some airlines a :
  first_unsupported airlines = Some a →
  a ∈ airlines ∧ mem a SUPPORTED_AIRLINES = false.
Proof.
  unfold first_unsupported. intros [Hin Hf]%find_some.
  split; [by apply list_elem_of_In|]. by apply negb_true_iff.
Qed.

Lemma append_edge_total adj i e :
  i < length adj →
  ∃ adj', append_edge adj i e = Ok adj' ∧ length adj' = length adj.
Proof.
  intros Hi. destruct (lookup_lt_is_Some_2 adj i Hi) as [row Hrow].
  unfold append_edge, list_get. rewrite Hrow. unbind.
  eexists. split; [done|]. by rewrite length_insert.
Qed.

Lemma dist_total df airline hub c :
  get_hub airline = Ok hub → hub ∈ map City df → c ∈ map City df →
  ∃ d, dist df hub c = Ok d.
Proof.
  intros Hhub Hin Hc. destruct (decide (c = hub)) as [->|Hne].
  - exists (Fin 0). unfold dist. by rewrite String.eqb_refl.
  - destruct (first_row_elem _ _ Hc) as (row & Hrow & _).
    eexists. by eapply dist_from_hub.
Qed.

Lemma city_step_total df airline hub hi adj c :
  get_hub airline = Ok hub →
  city_to_index_of (map City df) !! hub = Some hi →
  c ∈ map City df → length adj = length df →
  ∃ adj', city_step df (city_to_index_of (map City df)) airline hub hi adj c
          = Ok adj' ∧ length adj' = length df.
Proof.
  intros Hhub Hhi Hc Hlen. unfold city_step.
  destruct (String.eqb c hub); [by exists adj|].
  destruct (airline_serves_city airline c); simpl; [|by exists adj].
  destruct (proj1 (city_to_index_is_Some _ _) Hc) as [ci Hci].
  unfold dict_get. rewrite Hci. unbind.
  destruct (dist_total df airline hub c Hhub) as [d ->]; [|done|].
  { by eapply city_to_index_elem. }
  destruct (feq d PInf); [by exists adj|].
  pose proof (city_to_index_lt _ _ _ Hhi) as Hhi'.
  pose proof (city_to_index_lt _ _ _ Hci) as Hci'.
  rewrite length_map in Hhi', Hci'.
  destruct (append_edge_total adj hi (ci, d, Some airline)) as (adj1 & -> & Hl1);
    [lia|].
  destruct (append_edge_total adj1 ci (hi, d, Some airline)) as (adj2 & -> & Hl2);
    [lia|].
  exists adj2. split; [done|lia].
Qed.

(** A loop whose passes succeed and keep the number of rows succeeds. *)
Lemma foldM_total {A} (f : list (list Edge) → A → res (list (list Edge))) n l :
  (∀ adj x, x ∈ l → length adj = n →
     ∃ adj', f adj x = Ok adj' ∧ length adj' = n) →
  ∀ adj, length adj = n →
    ∃ adj', foldM f adj l = Ok adj' ∧ length adj' = n.
Proof.
  induction l as [|x l IH]; intros Hf adj Hlen; simpl; [by exists adj|].
  destruct (Hf adj x) as (adj1 & -> & Hl1); [by left|done|]. unbind.
  apply IH; [|done]. intros adj' y Hy. apply Hf. by right.
Qed.

Lemma airline_step_total df adj airline :
  mem airline SUPPORTED_AIRLINES = true → length adj = length df →
  ∃ adj', airline_step df (map City df) (city_to_index_of (map City df)) adj airline
          = Ok adj' ∧ length adj' = length df.
Proof.
  intros Hs Hlen. destruct (get_hub_supported airline Hs) as (hub & Hhub & _).
  unfold airline_step. rewrite Hhub. unbind.
  destruct (city_to_index_of (map City df) !! hub) as [hi|] eqn:Hhi;
    [|by exists adj].
  apply foldM_total; [|done]. intros adj0 c Hc Hl0. by apply city_step_total.
Qed.

Lemma build_graph_total df airlines :
  all_supported airlines = true →
  ∃ adj, build_graph df airlines
         = Ok (adj, city_to_index_of (map City df),
               index_to_city_of (map City df), df) ∧
         length adj = length df.
Proof.
  intros Hs. unfold build_graph.
  rewrite (proj2 (first_unsupported_None airlines) Hs).
  destruct (foldM_total
              (airline_step df (map City df) (city_to_index_of (map City df)))
              (length df) airlines) with (adj := replicate (length (map City df))
                                                   ([] : list Edge))
    as (adj & Hadj & Hlen).
  - intros adj a Ha Hl. apply airline_step_total; [|done].
    unfold all_supported in Hs. rewrite forallb_forall in Hs.
    by apply Hs, list_elem_of_In.
  - by rewrite length_replicate, length_map.
  - exists adj. rewrite Hadj. unbind. done.
Qed.

Lemma prefix_refl (s : string) : String.prefix s s = true.
Proof. induction s as [|c s IH]; [done|]. simpl. by destruct (Ascii.ascii_dec c c). Qed.

(** X8: [build_graph] returns a graph with one row of edges per row of the
    table whenever every airline is in the rule table; otherwise it raises
    a [ValueError] whose message starts with the name of an unsupported
    airline of the list, and nothing else ever makes it raise. *)
Theorem build_graph_raises_only_unsupported df airlines :
  if all_supported airlines then
    ∃ adj, build_graph df airlines
           = Ok (adj, city_to_index_of (map City df),
                 index_to_city_of (map City df), df) ∧
           length adj = length df
  else
    ∃ a msg, a ∈ airlines ∧ mem a SUPPORTED_AIRLINES = false ∧
         build_graph df airlines = Raise (ValueError msg) ∧
         String.prefix (String.append "Unsupported airline: " a) msg = true.
Proof.
  destruct (all_supported airlines) eqn:Hs; [by apply build_graph_total|].
  destruct (first_unsupported airlines) as [a|] eqn:Hf.
  - destruct (first_unsupported_Some _ _ Hf) as [Hin Ha].
    exists a, (String.append "Unsupported airline: " a).
    split; [done|]. split; [done|]. split; [|apply prefix_refl].
    unfold build_graph. by rewrite Hf.
  - apply first_unsupported_None in Hf. congruence.
Qed.


(** *** The shape of a built graph *)

Section BuiltShape.
Variables (df : list Row) (airlines : list string).
Variables (adj : list (list Edge)) (c2i : gmap string nat) (i2c : gmap nat string).
Variable (df' : list Row).
Hypothesis Hbuilt : build_graph df airlines = Ok (adj, c2i, i2c, df').

Lemma built_symmetric i j w lbl :
  edge_in adj i (j, w, lbl) → edge_in adj j (i, w, lbl).
Proof.
  intros He. apply (build_graph_edges _ _ _ _ _ _ Hbuilt) in He
    as (a & hub & c & hi & ci & row & ? & ? & ? & ? & ? & ? & ? & ? & ? & ? & Hdir).
  apply (build_graph_edges _ _ _ _ _ _ Hbuilt).
  exists a, hub, c, hi, ci, row. repeat split; try done.
  destruct Hdir as [[-> ->]|[-> ->]]; [by right|by left].
Qed.

Lemma built_edge_operates i j w lbl :
  edge_in adj i (j, w, lbl) →
  ∃ a o d, lbl = Some a ∧ a ∈ airlines ∧
    i2c !! i = Some o ∧ i2c !! j = Some d ∧ o ≠ d ∧
    c2i !! o = Some i ∧ c2i !! d = Some j ∧
    operates_route a o d (city_set df) = Ok true.
Proof.
  intros He. pose proof Hbuilt as (Hc2i & Hi2c & _)%build_graph_Ok.
  apply (build_graph_edges _ _ _ _ _ _ Hbuilt) in He
    as (a & hub & c & hi & ci & row & -> & Ha & Hhub & Hhi & Hci & Hne & _
        & Hs & _ & _ & Hdir).
  assert (Hin : ∀ x k, c2i !! x = Some k → x ∈ city_set df).
  { intros x k Hx. subst c2i. apply elem_of_list_to_set.
    by eapply city_to_index_elem. }
  assert (Hback : ∀ x k, c2i !! x = Some k → i2c !! k = Some x).
  { intros x k Hx. by eapply build_graph_index. }
  destruct Hdir as [[-> ->]|[-> ->]].
  - exists a, hub, c. repeat split; eauto.
    apply operates_route_Ok_true. exists hub. repeat split; eauto.
  - exists a, c, hub. repeat split; eauto.
    apply operates_route_Ok_true. exists hub. repeat split; eauto.
Qed.

Lemma built_hub_needed i j w a hub :
  get_hub a = Ok hub → hub ∉ map City df → ¬ edge_in adj i (j, w, Some a).
Proof.
  intros Hhub Hout He. pose proof Hbuilt as (Hc2i & _)%build_graph_Ok.
  apply (build_graph_edges _ _ _ _ _ _ Hbuilt) in He
    as (a' & hub' & c & hi & ci & row & [= <-] & _ & Hhub' & Hhi & _).
  apply Hout. subst c2i. eapply city_to_index_elem.
  rewrite Hhub in Hhub'. injection Hhub' as <-. done.
Qed.

End BuiltShape.

(** X9: A built graph is undirected: an edge from [i] to [j] comes with the edge
    from [j] to [i] of the same weight and airline. *)
Theorem build_graph_undirected df airlines adj c2i i2c df' i j w lbl :
  build_graph df airlines = Ok (adj, c2i, i2c, df') →
  edge_in adj i (j, w, lbl) ↔ edge_in adj j (i, w, lbl).
Proof. intros Hb. split; by eapply built_symmetric. Qed.

(** X10: Every edge of a built graph joins two cities of different names and
    carries a requested airline for which [operates_route] is true between
    the two, over the cities of the table. *)
Theorem build_graph_edges_operate df airlines adj c2i i2c df' i j w lbl :
  build_graph df airlines = Ok (adj, c2i, i2c, df') →
  edge_in adj i (j, w, lbl) →
  ∃ a o d, lbl = Some a ∧ a ∈ airlines ∧
    i2c !! i = Some o ∧ i2c !! j = Some d ∧ o ≠ d ∧
    operates_route a o d (city_set df) = Ok true.
Proof.
  intros Hb He.
  destruct (built_edge_operates _ _ _ _ _ _ Hb _ _ _ _ He)
    as (a & o & d & ? & ? & ? & ? & ? & _ & _ & ?).
  by exists a, o, d.
Qed.

(** X11: An airline whose hub is not a city of the table adds no edge. *)
Theorem build_graph_skips_absent_hub df airlines adj c2i i2c df' a hub i j w :
  build_graph df airlines = Ok (adj, c2i, i2c, df') →
  get_hub a = Ok hub → hub ∉ map City df →
  ¬ edge_in adj i (j, w, Some a).
Proof. intros Hb. by eapply built_hub_needed. Qed.

(** X12: The edges depend on which airlines are requested, not on their order
    nor on how often one is listed. *)
Theorem build_graph_airlines_as_set df S T adjS adjT c2iS c2iT i2cS i2cT dfS dfT :
  (∀ a, a ∈ S ↔ a ∈ T) →
  build_graph df S = Ok (adjS, c2iS, i2cS, dfS) →
  build_graph df T = Ok (adjT, c2iT, i2cT, dfT) →
  c2iS = c2iT ∧ i2cS = i2cT ∧
  ∀ i e, edge_in adjS i e ↔ edge_in adjT i e.
Proof.
  intros Hst HS HT.
  destruct (build_graph_mono df S T _ _ _ _ _ _ _ _ (λ a, proj1 (Hst a)) HS HT)
    as (? & ? & _ & H1).
  destruct (build_graph_mono df T S _ _ _ _ _ _ _ _ (λ a, proj2 (Hst a)) HT HS)
    as (_ & _ & _ & H2).
  repeat split; auto.
Qed.

(** X13: When no two rows of the table have the same City, the two mappings are
    a bijection between the city names and the indices below the number of
    rows. *)
Theorem build_graph_bijection df airlines adj c2i i2c df' :
  build_graph df airlines = Ok (adj, c2i, i2c, df') →
  NoDup (map City df) →
  index_bijection (map City df) c2i i2c ∧ length adj = length (map City df).
Proof.
  intros (-> & -> & _ & Hlen & _)%build_graph_Ok Hnd.
  split; [by apply index_bijection_NoDup|]. by rewrite length_map.
Qed.

(** *** [dist] *)

Lemma is_hub_name_cases c :
  is_hub_name c = true → c = "Doha" ∨ c = "Dubai" ∨ c = "Abu Dhabi".
Proof.
  unfold is_hub_name. rewrite mem_true_iff, !elem_of_cons, elem_of_nil. tauto.
Qed.

Lemma is_hub_name_false c :
  is_hub_name c = false →
  String.eqb c "Doha" = false ∧ String.eqb c "Dubai" = false ∧
  String.eqb c "Abu Dhabi" = false.
Proof.
  unfold is_hub_name, mem. simpl. rewrite !orb_false_iff. tauto.
Qed.

(** X14: Between two different cities of the table [dist] raises nothing; it is
    plus infinity when neither is one of the three hub names, and it does
    not depend on the order of the two when exactly one is. *)
Theorem dist_between df a b :
  a ∈ map City df → b ∈ map City df → a ≠ b → is_hub_name b = false →
  if is_hub_name a then
    ∃ row, first_row df b = Ok row ∧
           dist df a b = Ok (hub_column a row) ∧ dist df b a = Ok (hub_column a row)
  else dist df a b = Ok PInf.
Proof.
  intros Ha Hb Hne Hnb.
  destruct (first_row_elem _ _ Ha) as (ra & Hra & _).
  destruct (first_row_elem _ _ Hb) as (rb & Hrb & _).
  destruct (is_hub_name_false _ Hnb) as (Hb1 & Hb2 & Hb3).
  assert (Hab : String.eqb a b = false) by (by apply String.eqb_neq).
  assert (Hba : String.eqb b a = false) by (by apply String.eqb_neq).
  unfold dist. rewrite Hab, Hba, Hra, Hrb. unfold mbind, res_bind.
  rewrite Hb1, Hb2, Hb3.
  destruct (is_hub_name a) eqn:Hna.
  - exists rb. split; [done|].
    apply is_hub_name_cases in Hna as [-> | [-> | ->]]; by split.
  - destruct (is_hub_name_false _ Hna) as (-> & -> & ->). done.
Qed.


(** *** The properties on the table of two hubs and two cities *)

Lemma build_graph_undirected_witness :
  edge_in SearchFacts.qatar_graph 2 (0, Fin 5200, Some "Qatar Airways") ↔
  edge_in SearchFacts.qatar_graph 0 (2, Fin 5200, Some "Qatar Airways").
Proof.
  apply (build_graph_undirected SearchFacts.hub_table ["Qatar Airways"]
           SearchFacts.qatar_graph
           (city_to_index_of SearchFacts.hub_names)
           (index_to_city_of SearchFacts.hub_names) SearchFacts.hub_table).
  exact SearchFacts.qatar_graph_built.
Defined.

Lemma build_graph_edges_operate_witness :
  ∃ a o d, Some "Qatar Airways" = Some a ∧ a ∈ ["Qatar Airways"] ∧
    index_to_city_of SearchFacts.hub_names !! 2 = Some o ∧
    index_to_city_of SearchFacts.hub_names !! 0 = Some d ∧ o ≠ d ∧
    operates_route a o d (city_set SearchFacts.hub_table) = Ok true.
Proof.
  apply (build_graph_edges_operate SearchFacts.hub_table ["Qatar Airways"]
           SearchFacts.qatar_graph
           (city_to_index_of SearchFacts.hub_names)
           (index_to_city_of SearchFacts.hub_names) SearchFacts.hub_table
           2 0 (Fin 5200) (Some "Qatar Airways")).
  - exact SearchFacts.qatar_graph_built.
  - eexists. split; [vm_compute; reflexivity|]. by left.
Defined.

Lemma build_graph_skips_absent_hub_witness :
  ¬ edge_in (SearchFacts.graph_of SearchFacts.hub_table ["Etihad"]) 2
      (0, Fin 5480, Some "Etihad").
Proof.
  apply (build_graph_skips_absent_hub SearchFacts.hub_table ["Etihad"]
           (SearchFacts.graph_of SearchFacts.hub_table ["Etihad"])
           (city_to_index_of SearchFacts.hub_names)
           (index_to_city_of SearchFacts.hub_names) SearchFacts.hub_table
           "Etihad" "Abu Dhabi").
  - vm_compute. reflexivity.
  - reflexivity.
  - apply (bool_decide_unpack _). vm_compute. exact I.
Defined.

Lemma build_graph_airlines_as_set_witness :
  city_to_index_of SearchFacts.hub_names = city_to_index_of SearchFacts.hub_names ∧
  index_to_city_of SearchFacts.hub_names = index_to_city_of SearchFacts.hub_names ∧
  ∀ i e,
    edge_in SearchFacts.qatar_emirates_graph i e ↔
    edge_in (SearchFacts.graph_of SearchFacts.hub_table
               ["Emirates"; "Qatar Airways"; "Emirates"]) i e.
Proof.
  apply (build_graph_airlines_as_set SearchFacts.hub_table
           ["Qatar Airways"; "Emirates"] ["Emirates"; "Qatar Airways"; "Emirates"]
           SearchFacts.qatar_emirates_graph
           (SearchFacts.graph_of SearchFacts.hub_table
              ["Emirates"; "Qatar Airways"; "Emirates"])
           (city_to_index_of SearchFacts.hub_names)
           (city_to_index_of SearchFacts.hub_names)
           (index_to_city_of SearchFacts.hub_names)
           (index_to_city_of SearchFacts.hub_names)
           SearchFacts.hub_table SearchFacts.hub_table).
  - intros a. rewrite !elem_of_cons, elem_of_nil. tauto.
  - exact SearchFacts.qatar_emirates_graph_built.
  - vm_compute. reflexivity.
Defined.

Lemma build_graph_bijection_witness :
  index_bijection (map City SearchFacts.hub_table)
    (city_to_index_of SearchFacts.hub_names)
    (index_to_city_of SearchFacts.hub_names) ∧
  length SearchFacts.qatar_graph = length (map City SearchFacts.hub_table).
Proof.
  apply (build_graph_bijection SearchFacts.hub_table ["Qatar Airways"]
           SearchFacts.qatar_graph _ _ SearchFacts.hub_table).
  - exact SearchFacts.qatar_graph_built.
  - apply (bool_decide_unpack _). vm_compute. exact I.
Defined.

Lemma dist_between_witness :
  ∃ row, first_row SearchFacts.hub_table "London" = Ok row ∧
    dist SearchFacts.hub_table "Doha" "London" = Ok (hub_column "Doha" row) ∧
    dist SearchFacts.hub_table "London" "Doha" = Ok (hub_column "Doha" row).
Proof.
  apply (dist_between SearchFacts.hub_table "Doha" "London").
  - apply (bool_decide_unpack _). vm_compute. exact I.
  - apply (bool_decide_unpack _). vm_compute. exact I.
  - discriminate.
  - reflexivity.
Defined.


End GraphMore.

(** ** More on the searches *)

Module SearchMore.
Import Rules RulesFacts DataLoader GraphBuilder Dijkstra GraphFacts SearchFacts.
Import GraphMore.
Local Open Scope nat_scope.

Local Abbreviation aware := (λ (u : nat) (airline : option string), (u, airline)).
Local Abbreviation plain := (λ (u : nat) (_ : option string), u).

(** [f] applied to what a piece of code returns. *)
Definition res_map {A B : Type} (f : A → B) (m : res A) : res B :=
  match m with
  | Ok a => Ok (f a)
  | Raise e => Raise e
  | OutOfFuel => OutOfFuel
  end.

(** The [prev] of [dijkstra_standard] read off the [prev] of
    [dijkstra_airline_aware]: the airlines are forgotten. *)
Definition proj_prev (ps : list (option (nat * option string)))
  : list (option nat) :=
  map (fmap fst) ps.

Definition proj_state (st : state (nat * option string)) : state nat :=
  mkState (dist st) (proj_prev (prev st)) (heap st).

(** The distance and the cities of a result of [dijkstra_airline_aware]. *)
Definition without_legs (r : PathResult) : pyfloat * list string := (r.1.1, r.1.2).

(** A node with a predecessor. *)
Definition has_prev (ps : list (option (nat * option string))) (v : nat) : Prop :=
  ∃ pa, ps !! v = Some (Some pa).

(** *** The two searches run the same loop *)

Lemma relax_sim d u st e :
  relax plain d u (proj_state st) e = res_map proj_state (relax aware d u st e).
Proof.
  destruct e as [[v w] a]. unfold relax, list_get, list_set. simpl.
  destruct (dist st !! v) as [dv|]; simpl; [|done].
  destruct (flt (fadd d w) dv); [|done].
  destruct (decide (v < length (dist st))); simpl; [|done].
  unfold proj_prev. rewrite length_map.
  destruct (decide (v < length (prev st))); simpl; [|done].
  unfold proj_state, proj_prev. simpl. f_equal. f_equal.
  by rewrite list_fmap_insert.
Qed.

Lemma foldM_relax_sim d u edges st :
  foldM (relax plain d u) (proj_state st) edges
  = res_map proj_state (foldM (relax aware d u) st edges).
Proof.
  revert st. induction edges as [|e es IH]; intros st; simpl; [done|].
  rewrite relax_sim. destruct (relax aware d u st e) as [st1| |]; simpl; [|done..].
  apply IH.
Qed.

Lemma search_loop_sim fuel adj dst st :
  search_loop plain fuel adj dst (proj_state st)
  = res_map proj_state (search_loop aware fuel adj dst st).
Proof.
  revert st. induction fuel as [|fuel IH]; intros st; simpl; [done|].
  destruct (heap st) as [|[d u] h']; [done|].
  destruct (list_get (dist st) u) as [du| |]; simpl; [|done..].
  destruct (fgt d du).
  { apply (IH (mkState (dist st) (prev st) h')). }
  destruct (u =? dst); [done|].
  destruct (list_get adj u) as [edges| |]; simpl; [|done..].
  pose proof (foldM_relax_sim d u edges (mkState (dist st) (prev st) h')) as Hs.
  unfold proj_state in Hs at 1. simpl in Hs. rewrite Hs.
  destruct (foldM (relax aware d u) _ edges) as [st2| |]; simpl; [|done..].
  apply IH.
Qed.

Lemma search_sim fuel adj src dst :
  search plain fuel adj src dst
  = res_map proj_state (search aware fuel adj src dst).
Proof.
  unfold search. destruct (list_set _ src (Fin 0)) as [dist0| |]; simpl; [|done..].
  rewrite <- search_loop_sim. unfold proj_state, proj_prev. simpl.
  by rewrite fmap_replicate.
Qed.

(** *** The two ways back along [prev] *)

Lemma walk_back_of_standard fuel ps cur acc r :
  walk_back_standard fuel (proj_prev ps) (Some cur) acc = Ok r →
  walk_back fuel ps cur acc = Ok r.
Proof.
  revert cur acc. induction fuel as [|fuel IH]; intros cur acc; simpl; [done|].
  unfold list_get, proj_prev. rewrite list_lookup_fmap.
  destruct (ps !! cur) as [[[p a]|]|]; simpl; [| |done].
  - apply IH.
  - destruct fuel; simpl; done.
Qed.

Lemma walk_back_shape fuel ps cur acc r :
  walk_back fuel ps cur acc = Ok r →
  ∃ body root, r = acc ++ body ++ [root] ∧ Forall (has_prev ps) body.
Proof.
  revert cur acc. induction fuel as [|fuel IH]; intros cur acc; simpl; [done|].
  unfold list_get. destruct (ps !! cur) as [[[p a]|]|] eqn:Hcur; simpl; [| |done].
  - intros (body & root & -> & HF)%IH. exists (cur :: body), root.
    split; [by rewrite <- app_assoc|]. constructor; [by eexists|done].
  - intros [= <-]. by exists [], cur.
Qed.

Lemma path_cities_of_cons i2c u rest cs :
  path_cities_of i2c (u :: rest) = Ok cs →
  ∃ cu cs', i2c !! u = Some cu ∧ path_cities_of i2c rest = Ok cs' ∧ cs = cu :: cs'.
Proof.
  simpl. unfold dict_get. destruct (i2c !! u) as [cu|]; simpl; [|done].
  destruct (path_cities_of i2c rest) as [cs'| |]; simpl; [|done..].
  intros [= <-]. by exists cu, cs'.
Qed.

(** The legs of a path can be built when every node but the first has a
    predecessor and every node has a name. *)
Lemma segments_of_total ps i2c u rest cs :
  Forall (has_prev ps) rest → path_cities_of i2c (u :: rest) = Ok cs →
  ∃ legs, segments_of ps i2c (u :: rest) = Ok legs.
Proof.
  intros HF. revert u cs. induction HF as [|v rest [[p a] Hv] _ IH]; intros u cs.
  - by exists [].
  - intros (cu & cs' & Hu & Hrest & _)%path_cities_of_cons.
    pose proof Hrest as (cv & _ & Hcv & _ & _)%path_cities_of_cons.
    destruct (IH v cs' Hrest) as [legs Hlegs].
    rewrite segments_of_cons2. unfold list_get, dict_get.
    rewrite Hv, Hu, Hcv, Hlegs. simpl. by eexists.
Qed.

Lemma standard_agrees fuel adj c2i i2c source dest al r :
  dijkstra_standard fuel adj c2i i2c source dest = Ok r →
  ∃ r', dijkstra_airline_aware fuel adj c2i i2c source dest al = Ok r' ∧
        r = without_legs <$> r'.
Proof.
  unfold dijkstra_standard, dijkstra_airline_aware.
  destruct (c2i !! source) as [src|]; [|intros [= <-]; by exists None].
  destruct (c2i !! dest) as [dst|]; [|intros [= <-]; by exists None].
  rewrite search_sim.
  destruct (search aware fuel adj src dst) as [st| |]; simpl; [|done..].
  destruct (list_get (dist st) dst) as [d| |]; simpl; [|done..].
  destruct (feq d PInf); [intros [= <-]; by exists None|].
  destruct (walk_back_standard fuel (proj_prev (prev st)) (Some dst) [])
    as [visited| |] eqn:Hw; simpl; [|done..].
  apply walk_back_of_standard in Hw. rewrite Hw. simpl.
  destruct (path_cities_of i2c (reverse visited)) as [cs| |] eqn:Hcs;
    simpl; [|done..].
  intros [= <-].
  destruct (walk_back_shape _ _ _ _ _ Hw) as (body & root & Hv & HF).
  simpl in Hv. subst visited.
  rewrite reverse_app, reverse_singleton in Hcs |- *.
  change ([root] ++ reverse body) with (root :: reverse body) in *.
  destruct (segments_of_total (prev st) i2c root (reverse body) cs)
    as [legs Hlegs]; [by apply Forall_reverse|done|].
  rewrite Hlegs. simpl. by eexists.
Qed.

(** X15: On any graph and any mappings, when [dijkstra_standard] returns, so does
    [dijkstra_airline_aware], with the same distance and the same cities
    (and the legs besides), or with [None] as well. *)
Theorem standard_is_aware_without_legs fuel adj c2i i2c source dest al r :
  dijkstra_standard fuel adj c2i i2c source dest = Ok r →
  ∃ r', dijkstra_airline_aware fuel adj c2i i2c source dest al = Ok r' ∧
        r = without_legs <$> r'.
Proof. apply standard_agrees. Qed.


(** *** Routes on built graphs *)

Lemma legs_total_Some_each adj c2i legs t :
  legs_total adj c2i legs = Some t →
  ∀ leg, leg ∈ legs → is_Some (leg_weight adj c2i leg).
Proof.
  revert t. induction legs as [|l legs IH] using rev_ind; intros t.
  - intros _ leg ?%elem_of_nil. done.
  - rewrite legs_total_snoc.
    destruct (legs_total adj c2i legs) as [t'|] eqn:Ht; simpl; [|done].
    destruct (leg_weight adj c2i l) as [w|] eqn:Hw; simpl; [|done].
    intros _ leg [Hin| ->%list_elem_of_singleton]%elem_of_app.
    + by eapply IH.
    + by rewrite Hw.
Qed.

Lemma edge_weight_Some adj u v a w :
  edge_weight adj u v a = Some w → edge_in adj u (v, w, a).
Proof.
  unfold edge_weight, Edge in *.
  destruct (adj !! u) as [row|] eqn:Hrow; simpl; [|done].
  remember (filter (λ e : nat * pyfloat * option string, e.1.1 = v ∧ e.2 = a) row)
    as fl eqn:Hf.
  assert (Hsub : ∀ e, e ∈ fl → (e.1.1 = v ∧ e.2 = a) ∧ e ∈ row).
  { subst fl. intros e He. by apply list_elem_of_filter in He. }
  clear Hf. destruct fl as [|[[v' w'] a'] rest]; simpl; [done|].
  intros [= <-]. destruct (Hsub (v', w', a')) as [[H1 H2] He]; [by left|].
  simpl in *. subst. by exists row.
Qed.

Lemma leg_weight_edge adj c2i leg w :
  leg_weight adj c2i leg = Some w →
  ∃ u v, c2i !! leg.1.1 = Some u ∧ c2i !! leg.1.2 = Some v ∧
         edge_in adj u (v, w, leg.2).
Proof.
  unfold leg_weight.
  destruct (c2i !! leg.1.1) as [u|]; simpl; [|done].
  destruct (c2i !! leg.1.2) as [v|]; simpl; [|done].
  intros He%edge_weight_Some. by exists u, v.
Qed.

Section BuiltRoute.
Variables (df : list Row) (airlines : list string).
Variables (adj : list (list Edge)) (c2i : gmap string nat) (i2c : gmap nat string).
Variable (df' : list Row).
Hypothesis Hbuilt : build_graph df airlines = Ok (adj, c2i, i2c, df').
Hypothesis Hnonneg : nonneg_weights adj.

Lemma built_aware_spec fuel source dest al src dst :
  c2i !! source = Some src → c2i !! dest = Some dst →
  (dijkstra_airline_aware fuel adj c2i i2c source dest al = OutOfFuel ∧
   fuel < enough_fuel adj) ∨
  (dijkstra_airline_aware fuel adj c2i i2c source dest al = Ok None ∧
   ∀ nodes W, ¬ is_path adj src nodes dst W) ∨
  (∃ x nodes cities legs,
     dijkstra_airline_aware fuel adj c2i i2c source dest al
       = Ok (Some (Fin x, cities, legs)) ∧
     is_path adj src nodes dst (Fin x) ∧
     (∀ nodes' W, is_path adj src nodes' dst W → fle (Fin x) W = true) ∧
     Forall2 (named c2i i2c) nodes cities ∧
     legs_total adj c2i legs = Some (Fin x) ∧
     (∀ k leg, legs !! k = Some leg →
        cities !! k = Some leg.1.1 ∧ cities !! S k = Some leg.1.2) ∧
     length cities = S (length legs) ∧
     head cities = Some source ∧ last cities = Some dest).
Proof.
  apply aware_spec; [done|..].
  - by eapply built_index.
  - by eapply built_named.
  - by eapply built_unique.
Qed.

(** Every leg is an edge of the graph, so [operates_route] is true of it. *)
Lemma built_legs_operated fuel source dest al total cities legs leg :
  dijkstra_airline_aware fuel adj c2i i2c source dest al
    = Ok (Some (total, cities, legs)) →
  leg ∈ legs →
  ∃ a, leg.2 = Some a ∧ a ∈ airlines ∧ leg.1.1 ≠ leg.1.2 ∧
       operates_route a leg.1.1 leg.1.2 (city_set df) = Ok true.
Proof.
  intros Hres Hleg.
  destruct (aware_Some_keys _ _ _ _ _ _ _ _ Hres) as (src & dst & Hs & Hd).
  destruct (built_aware_spec fuel source dest al src dst Hs Hd)
    as [[Ho _]|[[Hn _]|(x & nodes & cs & ls & Hr & _ & _ & _ & Htot & _)]];
    try congruence.
  rewrite Hr in Hres. injection Hres as <- <- <-.
  destruct (legs_total_Some_each _ _ _ _ Htot leg Hleg) as [w Hw].
  destruct (leg_weight_edge _ _ _ _ Hw) as (u & v & Hu & Hv & He).
  destruct (built_edge_operates _ _ _ _ _ _ Hbuilt _ _ _ _ He)
    as (a & o & d & Ha & Hin & Ho & Hd' & Hne & _ & _ & Hop).
  pose proof (built_index _ _ _ _ _ _ Hbuilt _ _ Hu) as [_ Hu'].
  pose proof (built_index _ _ _ _ _ _ Hbuilt _ _ Hv) as [_ Hv'].
  assert (o = leg.1.1) as -> by congruence.
  assert (d = leg.1.2) as -> by congruence.
  by exists a.
Qed.

(** The predecessor links behind a result. *)
Lemma built_aware_tree fuel source dest al src dst total cities legs :
  c2i !! source = Some src → c2i !! dest = Some dst →
  dijkstra_airline_aware fuel adj c2i i2c source dest al
    = Ok (Some (total, cities, legs)) →
  ∃ st done nodes,
    tree_path aware adj src done (dist st) (prev st) dst nodes ∧
    path_cities_of i2c nodes = Ok cities.
Proof.
  intros Hs Hd. unfold dijkstra_airline_aware. rewrite Hs, Hd.
  pose proof (built_index _ _ _ _ _ _ Hbuilt _ _ Hs) as [Hsrc _].
  pose proof (built_index _ _ _ _ _ _ Hbuilt _ _ Hd) as [Hdst _].
  assert (Hclosed : closed_graph adj).
  { apply (closed_of_named adj c2i i2c).
    - intros c i. by eapply built_index.
    - intros i j w a. by eapply built_named. }
  destruct (search_spec aware adj src Hnonneg Hclosed fuel dst Hsrc)
    as [[-> _]|(st & -> & HF)]; [done|].
  unfold mbind, res_bind. destruct HF as [Hld Hlp Hsd Hsp Hshape Htree Hopt].
  destruct (lookup_lt_is_Some_2 (dist st) dst) as [d Hdd]; [lia|].
  unfold list_get. rewrite Hdd.
  destruct (Hshape dst d Hdd) as [->|(x & -> & Hx)]; [done|].
  simpl feq. cbv iota.
  destruct (Htree dst x Hdd) as (done & nodes & Ht).
  destruct (walk_back_spec adj src done _ _ _ _ Ht Hsp fuel []) as [[-> _]| ->];
    [done|].
  simpl. rewrite reverse_involutive.
  destruct (path_cities_of i2c nodes) as [cs| |] eqn:Hcs; [|done..].
  destruct (segments_of (prev st) i2c nodes) as [ls| |]; [|done..].
  intros [= <- <- <-]. by exists st, done, nodes.
Qed.

Lemma built_route_simple fuel source dest al total cities legs :
  dijkstra_airline_aware fuel adj c2i i2c source dest al
    = Ok (Some (total, cities, legs)) →
  NoDup cities ∧ length cities ≤ length df.
Proof.
  intros Hres.
  destruct (aware_Some_keys _ _ _ _ _ _ _ _ Hres) as (src & dst & Hs & Hd).
  destruct (built_aware_tree _ _ _ _ _ _ _ _ _ Hs Hd Hres)
    as (st & done & nodes & Ht & Hcs).
  pose proof (built_index _ _ _ _ _ _ Hbuilt _ _ Hs) as [Hsrc _].
  assert (Hix : ∀ c i, c2i !! c = Some i → i < length adj ∧ i2c !! i = Some c).
  { intros c i. by eapply built_index. }
  assert (Hnm : ∀ i j w a, edge_in adj i (j, w, a) → ∃ c, c2i !! c = Some j).
  { intros i j w a. by eapply built_named. }
  destruct (path_cities_of_Ok c2i i2c nodes) as (cs & Hcs' & HF).
  { intros y Hy.
    apply (tree_path_named adj c2i i2c Hix Hnm aware src done (dist st)
             (prev st) dst nodes); [by exists source|done|done]. }
  rewrite Hcs in Hcs'. injection Hcs' as <-.
  pose proof (tree_path_NoDup _ _ _ _ _ _ _ _ Ht) as Hnd.
  pose proof HF as Hlen. apply Forall2_length in Hlen.
  pose proof Hbuilt as (_ & _ & _ & Hladj & _)%build_graph_Ok.
  split.
  - apply NoDup_alt. intros p q c Hp Hq.
    destruct (Forall2_lookup_r _ _ _ _ _ HF Hp) as (i & Hi & _ & Hci).
    destruct (Forall2_lookup_r _ _ _ _ _ HF Hq) as (j & Hj & _ & Hcj).
    assert (i = j) as -> by congruence.
    by eapply NoDup_lookup.
  - rewrite <- Hlen, <- Hladj.
    eapply tree_path_length; eauto.
    apply (closed_of_named adj c2i i2c); auto.
Qed.

Lemma built_route_via_hub fuel source dest al total cities legs :
  dijkstra_airline_aware fuel adj c2i i2c source dest al
    = Ok (Some (total, cities, legs)) →
  source ≠ dest →
  is_hub source airlines = Ok false → is_hub dest airlines = Ok false →
  ∃ hub, is_hub hub airlines = Ok true ∧ cities !! 1 = Some hub ∧
         3 ≤ length cities.
Proof.
  intros Hres Hne Hsh Hdh.
  destruct (aware_Some_keys _ _ _ _ _ _ _ _ Hres) as (src & dst & Hs & Hd).
  destruct (built_aware_spec fuel source dest al src dst Hs Hd)
    as [[Ho _]|[[Hn _]|(x & nodes & cs & ls & Hr & _ & _ & _ & _ & Hlegs
                        & Hlen & Hhd & Hlast)]]; try congruence.
  pose proof Hres as Hres'. rewrite Hr in Hres'. injection Hres' as <- <- <-.
  unfold is_hub in *.
  destruct (get_hubs_for_airlines airlines) as [hs| |] eqn:Hhs; [|done..].
  simpl in *. injection Hsh as Hsh. injection Hdh as Hdh.
  apply bool_decide_eq_false in Hsh, Hdh.
  destruct ls as [|leg ls].
  { destruct cs as [|c [|? ?]]; simpl in *; try done.
    congruence. }
  destruct (Hlegs 0 leg eq_refl) as [H0 H1].
  destruct (built_legs_operated _ _ _ _ _ _ _ leg Hres) as (a & _ & Ha & _ & Hop);
    [by left|].
  apply operates_route_Ok_true in Hop as (hub & Hhub & _ & _ & Hcase).
  assert (Hsrc0 : leg.1.1 = source).
  { destruct cs; simpl in *; congruence. }
  assert (Hin : hub ∈ hs).
  { apply (get_hubs_elem airlines hs hub Hhs). by exists a. }
  destruct Hcase as [[Heq _]|[Heq _]].
  { exfalso. apply Hsh. congruence. }
  exists hub. split; [by rewrite bool_decide_eq_true_2|].
  split; [congruence|].
  destruct cs as [|c0 [|c1 [|c2 rest]]]; simpl in *; try lia.
  exfalso. apply Hdh. congruence.
Qed.

End BuiltRoute.


(** X17: Every leg of a route found on a built graph carries a requested
    airline, joins two different cities, and is a route that this airline
    operates according to [operates_route]: a leg never has the label
    [None]. *)
Theorem route_legs_operated df airlines adj c2i i2c df' fuel source dest al
    total cities legs leg :
  build_graph df airlines = Ok (adj, c2i, i2c, df') →
  nonneg_weights adj →
  dijkstra_airline_aware fuel adj c2i i2c source dest al
    = Ok (Some (total, cities, legs)) →
  leg ∈ legs →
  ∃ a, leg.2 = Some a ∧ a ∈ airlines ∧ leg.1.1 ≠ leg.1.2 ∧
       operates_route a leg.1.1 leg.1.2 (city_set df) = Ok true.
Proof. intros Hb Hnn. by eapply built_legs_operated. Qed.

(** X18: A route found on a built graph goes through no city twice, so it has
    at most as many cities as the table has rows. *)
Theorem route_is_simple df airlines adj c2i i2c df' fuel source dest al
    total cities legs :
  build_graph df airlines = Ok (adj, c2i, i2c, df') →
  nonneg_weights adj →
  dijkstra_airline_aware fuel adj c2i i2c source dest al
    = Ok (Some (total, cities, legs)) →
  NoDup cities ∧ length cities ≤ length df.
Proof. intros Hb Hnn. by eapply built_route_simple. Qed.

(** X19: A route between two different cities, neither of them the hub of a
    requested airline, changes at such a hub: its second city is one, and it
    has at least two legs. *)
Theorem route_between_spokes_via_hub df airlines adj c2i i2c df' fuel source
    dest al total cities legs :
  build_graph df airlines = Ok (adj, c2i, i2c, df') →
  nonneg_weights adj →
  dijkstra_airline_aware fuel adj c2i i2c source dest al
    = Ok (Some (total, cities, legs)) →
  source ≠ dest →
  is_hub source airlines = Ok false → is_hub dest airlines = Ok false →
  ∃ hub, is_hub hub airlines = Ok true ∧ cities !! 1 = Some hub ∧
         3 ≤ length cities.
Proof. intros Hb Hnn. by eapply built_route_via_hub. Qed.


(** With the airlines of [S] among those of [T], what the search finds on
    the graph of [T] is at most what it finds on the graph of [S]. *)
Lemma more_airlines_le df S T adjS adjT c2iS c2iT i2cS i2cT dfS dfT
    fuelS fuelT source dest alS alT dS cS lS dT cT lT :
  (∀ a, a ∈ S → a ∈ T) →
  build_graph df S = Ok (adjS, c2iS, i2cS, dfS) →
  build_graph df T = Ok (adjT, c2iT, i2cT, dfT) →
  nonneg_weights adjT →
  dijkstra_airline_aware fuelS adjS c2iS i2cS source dest alS
    = Ok (Some (dS, cS, lS)) →
  dijkstra_airline_aware fuelT adjT c2iT i2cT source dest alT
    = Ok (Some (dT, cT, lT)) →
  ∃ x y, dS = Fin x ∧ dT = Fin y ∧ (y ≤ x)%Z.
Proof.
  intros Hsub HbS HbT HnnT HrS HrT.
  destruct (build_graph_mono _ _ _ _ _ _ _ _ _ _ _ Hsub HbS HbT)
    as (-> & -> & Hlen & Hedges).
  assert (HnnS : nonneg_weights adjS).
  { intros i j w a He. eapply HnnT, Hedges, He. }
  destruct (aware_Some_keys _ _ _ _ _ _ _ _ HrS) as (src & dst & Hs & Hd).
  destruct (built_aware_spec _ _ _ _ _ _ HbS HnnS fuelS source dest alS src dst
              Hs Hd)
    as [[Ho _]|[[Hn _]|(x & nodes & cs & ls & Hr & Hp & _)]]; try congruence.
  rewrite Hr in HrS. injection HrS as <- <- <-.
  destruct (built_aware_spec _ _ _ _ _ _ HbT HnnT fuelT source dest alT src dst
              Hs Hd)
    as [[Ho _]|[[Hn _]|(y & nodes' & cs' & ls' & Hr' & _ & Hopt & _)]];
    try congruence.
  rewrite Hr' in HrT. injection HrT as <- <- <-.
  exists x, y. repeat split. apply fle_Fin.
  eapply Hopt, is_path_mono; eauto.
Qed.

(** X20: Two selections of the same airlines (in any order, with any repetition)
    give the same total distance. *)
Theorem same_airlines_same_distance df S T adjS adjT c2iS c2iT i2cS i2cT dfS dfT
    fuelS fuelT source dest alS alT dS cS lS dT cT lT :
  (∀ a, a ∈ S ↔ a ∈ T) →
  build_graph df S = Ok (adjS, c2iS, i2cS, dfS) →
  build_graph df T = Ok (adjT, c2iT, i2cT, dfT) →
  nonneg_weights adjT →
  dijkstra_airline_aware fuelS adjS c2iS i2cS source dest alS
    = Ok (Some (dS, cS, lS)) →
  dijkstra_airline_aware fuelT adjT c2iT i2cT source dest alT
    = Ok (Some (dT, cT, lT)) →
  dS = dT.
Proof.
  intros Hst HbS HbT HnnT HrS HrT.
  assert (HnnS : nonneg_weights adjS).
  { destruct (build_graph_mono df S T _ _ _ _ _ _ _ _ (λ a, proj1 (Hst a)) HbS HbT)
      as (_ & _ & _ & Hedges).
    intros i j w a He. eapply HnnT, Hedges, He. }
  destruct (more_airlines_le df S T _ _ _ _ _ _ _ _ _ _ _ _ _ _ _ _ _ _ _ _
              (λ a, proj1 (Hst a)) HbS HbT HnnT HrS HrT)
    as (x & y & -> & -> & Hle).
  destruct (more_airlines_le df T S _ _ _ _ _ _ _ _ _ _ _ _ _ _ _ _ _ _ _ _
              (λ a, proj2 (Hst a)) HbT HbS HnnS HrT HrS)
    as (y' & x' & [= <-] & [= <-] & Hle').
  f_equal. lia.
Qed.

(** X21: Requesting more airlines never loses a route: when the search succeeds
    with the airlines of [S], it succeeds with those of [T], given enough
    iterations. *)
Theorem more_airlines_keep_route df S T adjS adjT c2iS c2iT i2cS i2cT dfS dfT
    fuelS fuelT source dest alS alT rS :
  (∀ a, a ∈ S → a ∈ T) →
  build_graph df S = Ok (adjS, c2iS, i2cS, dfS) →
  build_graph df T = Ok (adjT, c2iT, i2cT, dfT) →
  nonneg_weights adjT →
  dijkstra_airline_aware fuelS adjS c2iS i2cS source dest alS = Ok (Some rS) →
  enough_fuel adjT ≤ fuelT →
  ∃ rT, dijkstra_airline_aware fuelT adjT c2iT i2cT source dest alT
        = Ok (Some rT).
Proof.
  intros Hsub HbS HbT HnnT HrS Hfuel.
  destruct (build_graph_mono _ _ _ _ _ _ _ _ _ _ _ Hsub HbS HbT)
    as (-> & -> & Hlen & Hedges).
  assert (HnnS : nonneg_weights adjS).
  { intros i j w a He. eapply HnnT, Hedges, He. }
  destruct (aware_Some_keys _ _ _ _ _ _ _ _ HrS) as (src & dst & Hs & Hd).
  destruct (built_aware_spec _ _ _ _ _ _ HbS HnnS fuelS source dest alS src dst
              Hs Hd)
    as [[Ho _]|[[Hn _]|(x & nodes & cs & ls & Hr & Hp & _)]]; try congruence.
  destruct (built_aware_spec _ _ _ _ _ _ HbT HnnT fuelT source dest alT src dst
              Hs Hd)
    as [[_ Hf]|[[_ Hn]|(y & nodes' & cs' & ls' & Hr' & _)]].
  - lia.
  - exfalso. eapply Hn, is_path_mono; eauto.
  - by eexists.
Qed.

(** The search from a city to itself, when the index of the city is a node
    that maps back to the city. *)
Lemma same_city_result adj c2i i2c fuel city i al :
  c2i !! city = Some i → i < length adj → i2c !! i = Some city →
  dijkstra_airline_aware (S fuel) adj c2i i2c city city al
  = Ok (Some (Fin 0, [city], [])).
Proof.
  intros Hc Hi Hback.
  unfold dijkstra_airline_aware, search, list_set. rewrite Hc.
  rewrite length_replicate. destruct (decide (i < length adj)); [|done].
  unfold mbind, res_bind. simpl. unfold list_get.
  rewrite list_lookup_insert_eq by (by rewrite length_replicate).
  unfold fgt. simpl. rewrite Nat.eqb_refl. simpl.
  rewrite list_lookup_insert_eq by (by rewrite length_replicate). simpl.
  rewrite lookup_replicate_2 by done. simpl.
  unfold dict_get. by rewrite Hback.
Qed.

(** X22: A route found on a built graph has a total that is a finite number,
    not negative, and it has no leg exactly when the source is the
    destination. *)
Theorem route_total_and_legs df airlines adj c2i i2c df' fuel source dest al
    total cities legs :
  build_graph df airlines = Ok (adj, c2i, i2c, df') →
  nonneg_weights adj →
  dijkstra_airline_aware fuel adj c2i i2c source dest al
    = Ok (Some (total, cities, legs)) →
  (∃ x, total = Fin x ∧ (0 ≤ x)%Z) ∧ (legs = [] ↔ source = dest).
Proof.
  intros Hb Hnn Hres.
  destruct (aware_Some_keys _ _ _ _ _ _ _ _ Hres) as (src & dst & Hs & Hd).
  destruct (built_aware_spec _ _ _ _ _ _ Hb Hnn fuel source dest al src dst Hs Hd)
    as [[Ho _]|[[Hn _]|(x & nodes & cs & ls & Hr & Hp & _ & _ & _ & _
                        & Hlen & Hhd & Hlast)]]; try congruence.
  pose proof Hres as Hres'. rewrite Hr in Hres'. injection Hres' as <- <- <-.
  split.
  - destruct (is_path_Fin _ _ _ _ _ Hnn Hp) as (x' & [= <-] & ?). by exists x.
  - split.
    + intros ->. destruct cs as [|c [|? ?]]; simpl in *; try done. congruence.
    + intros <-. destruct fuel as [|fuel].
      { by unfold dijkstra_airline_aware, search in Hres; rewrite Hs in Hres;
        destruct (list_set _ _ _). }
      destruct (built_index _ _ _ _ _ _ Hb _ _ Hs) as [Hi Hback].
      rewrite (same_city_result adj c2i i2c fuel source src al Hs Hi Hback) in Hres.
      by injection Hres as _ _ <-.
Qed.

(** *** The properties on the table of two hubs and two cities *)

Lemma standard_is_aware_without_legs_witness :
  ∃ r', dijkstra_airline_aware 20 qatar_emirates_graph
          (city_to_index_of hub_names) (index_to_city_of hub_names)
          "London" "Dubai" ["Qatar Airways"; "Emirates"] = Ok r' ∧
        Some (Fin 5500, ["London"; "Dubai"]) = without_legs <$> r'.
Proof.
  apply (standard_is_aware_without_legs 20 qatar_emirates_graph
           (city_to_index_of hub_names) (index_to_city_of hub_names)
           "London" "Dubai" ["Qatar Airways"; "Emirates"]).
  vm_compute. reflexivity.
Defined.


Lemma route_legs_operated_witness :
  ∃ a, Some "Qatar Airways" = Some a ∧ a ∈ ["Qatar Airways"] ∧
       "London" ≠ "Doha" ∧
       operates_route a "London" "Doha" (city_set hub_table) = Ok true.
Proof.
  apply (route_legs_operated hub_table ["Qatar Airways"] qatar_graph
           (city_to_index_of hub_names) (index_to_city_of hub_names) hub_table
           20 "London" "Dubai" [] (Fin 5580) ["London"; "Doha"; "Dubai"]
           [("London", "Doha", Some "Qatar Airways");
            ("Doha", "Dubai", Some "Qatar Airways")]
           ("London", "Doha", Some "Qatar Airways")).
  - exact qatar_graph_built.
  - exact qatar_graph_nonneg.
  - vm_compute. reflexivity.
  - by left.
Defined.

Lemma route_is_simple_witness :
  NoDup ["London"; "Doha"; "Dubai"] ∧
  length ["London"; "Doha"; "Dubai"] ≤ length hub_table.
Proof.
  apply (route_is_simple hub_table ["Qatar Airways"] qatar_graph
           (city_to_index_of hub_names) (index_to_city_of hub_names) hub_table
           20 "London" "Dubai" [] (Fin 5580) ["London"; "Doha"; "Dubai"]
           [("London", "Doha", Some "Qatar Airways");
            ("Doha", "Dubai", Some "Qatar Airways")]).
  - exact qatar_graph_built.
  - exact qatar_graph_nonneg.
  - vm_compute. reflexivity.
Defined.

Lemma route_between_spokes_via_hub_witness :
  ∃ hub, is_hub hub ["Qatar Airways"] = Ok true ∧
         ["London"; "Doha"; "Mumbai"] !! 1 = Some hub ∧
         3 ≤ length ["London"; "Doha"; "Mumbai"].
Proof.
  apply (route_between_spokes_via_hub hub_table ["Qatar Airways"] qatar_graph
           (city_to_index_of hub_names) (index_to_city_of hub_names) hub_table
           20 "London" "Mumbai" [] (Fin 7500) ["London"; "Doha"; "Mumbai"]
           [("London", "Doha", Some "Qatar Airways");
            ("Doha", "Mumbai", Some "Qatar Airways")]).
  - exact qatar_graph_built.
  - exact qatar_graph_nonneg.
  - vm_compute. reflexivity.
  - discriminate.
  - vm_compute. reflexivity.
  - vm_compute. reflexivity.
Defined.

Lemma same_airlines_same_distance_witness : Fin 5500 = Fin 5500.
Proof.
  apply (same_airlines_same_distance hub_table
           ["Qatar Airways"; "Emirates"] ["Emirates"; "Qatar Airways"; "Emirates"]
           qatar_emirates_graph
           (graph_of hub_table ["Emirates"; "Qatar Airways"; "Emirates"])
           (city_to_index_of hub_names) (city_to_index_of hub_names)
           (index_to_city_of hub_names) (index_to_city_of hub_names)
           hub_table hub_table 20 20 "London" "Dubai" [] []
           (Fin 5500) ["London"; "Dubai"] [("London", "Dubai", Some "Emirates")]
           (Fin 5500) ["London"; "Dubai"] [("London", "Dubai", Some "Emirates")]).
  - intros a. rewrite !elem_of_cons, elem_of_nil. tauto.
  - exact qatar_emirates_graph_built.
  - vm_compute. reflexivity.
  - apply nonneg_weightsb_true. vm_compute. reflexivity.
  - vm_compute. reflexivity.
  - vm_compute. reflexivity.
Defined.

Lemma more_airlines_keep_route_witness :
  ∃ rT, dijkstra_airline_aware 20 qatar_emirates_graph
          (city_to_index_of hub_names) (index_to_city_of hub_names)
          "London" "Dubai" [] = Ok (Some rT).
Proof.
  apply (more_airlines_keep_route hub_table
           ["Qatar Airways"] ["Qatar Airways"; "Emirates"]
           qatar_graph qatar_emirates_graph
           (city_to_index_of hub_names) (city_to_index_of hub_names)
           (index_to_city_of hub_names) (index_to_city_of hub_names)
           hub_table hub_table 20 20 "London" "Dubai" [] []
           (Fin 5580, ["London"; "Doha"; "Dubai"],
            [("London", "Doha", Some "Qatar Airways");
             ("Doha", "Dubai", Some "Qatar Airways")])).
  - intros a Ha. apply elem_of_cons. by left; apply list_elem_of_singleton.
  - exact qatar_graph_built.
  - exact qatar_emirates_graph_built.
  - exact qatar_emirates_graph_nonneg.
  - vm_compute. reflexivity.
  - vm_compute. lia.
Defined.

Lemma route_total_and_legs_witness :
  (∃ x, Fin 5580 = Fin x ∧ (0 ≤ x)%Z) ∧
  ([("London", "Doha", Some "Qatar Airways");
    ("Doha", "Dubai", Some "Qatar Airways")] = [] ↔ "London" = "Dubai").
Proof.
  apply (route_total_and_legs hub_table ["Qatar Airways"] qatar_graph
           (city_to_index_of hub_names) (index_to_city_of hub_names) hub_table
           20 "London" "Dubai" [] (Fin 5580) ["London"; "Doha"; "Dubai"]).
  - exact qatar_graph_built.
  - exact qatar_graph_nonneg.
  - vm_compute. reflexivity.
Defined.


End SearchMore.

(** ** Coordinates for the maps *)

Module MapFacts.
Import DataLoader GraphBuilder Dijkstra WebMap Visualization.
Import GraphFacts SearchFacts LoaderFacts SearchMore.

Lemma path_cities_of_elems i2c path cs c :
  path_cities_of i2c path = Ok cs → c ∈ cs → ∃ i, i2c !! i = Some c.
Proof.
  revert cs. induction path as [|u path IH]; intros cs.
  - intros [= <-] ?%elem_of_nil. done.
  - intros (cu & cs' & Hu & Hrest & ->)%path_cities_of_cons
           [->|Hin]%elem_of_cons; [by exists u|by eapply IH].
Qed.

Lemma segments_of_elems ps i2c path legs leg :
  segments_of ps i2c path = Ok legs → leg ∈ legs →
  (∃ i, i2c !! i = Some leg.1.1) ∧ (∃ j, i2c !! j = Some leg.1.2).
Proof.
  revert legs. induction path as [|u path IH]; intros legs.
  { intros [= <-] ?%elem_of_nil. done. }
  destruct path as [|v rest].
  { intros [= <-] ?%elem_of_nil. done. }
  rewrite segments_of_cons2. unfold mbind, res_bind, list_get, dict_get.
  destruct (ps !! v) as [[[p a]|]|]; try done.
  destruct (i2c !! u) as [cu|] eqn:Hu; try done.
  destruct (i2c !! v) as [cv|] eqn:Hv; try done.
  destruct (segments_of ps i2c (v :: rest)) as [segs| |]; try done.
  intros [= <-] [->|Hin]%elem_of_cons; [|by eapply IH].
  split; [by exists u|by exists v].
Qed.

(** Every name in a result comes out of [index_to_city]. *)
Lemma aware_names fuel adj c2i i2c source dest al total cities legs :
  dijkstra_airline_aware fuel adj c2i i2c source dest al
    = Ok (Some (total, cities, legs)) →
  (∀ c, c ∈ cities → ∃ i, i2c !! i = Some c) ∧
  (∀ leg, leg ∈ legs →
     (∃ i, i2c !! i = Some leg.1.1) ∧ (∃ j, i2c !! j = Some leg.1.2)).
Proof.
  unfold dijkstra_airline_aware.
  destruct (c2i !! source) as [src|]; [|done].
  destruct (c2i !! dest) as [dst|]; [|done].
  unfold mbind, res_bind.
  destruct (search _ fuel adj src dst) as [st| |]; [|done..].
  destruct (list_get (dist st) dst) as [d| |]; [|done..].
  destruct (feq d PInf); [done|].
  destruct (walk_back fuel (prev st) dst []) as [visited| |]; [|done..].
  destruct (path_cities_of i2c (reverse visited)) as [cs| |] eqn:Hcs; [|done..].
  destruct (segments_of (prev st) i2c (reverse visited)) as [ls| |] eqn:Hls;
    [|done..].
  intros [= <- <- <-]. split.
  - intros c Hc. by eapply path_cities_of_elems.
  - intros leg Hleg. by eapply segments_of_elems.
Qed.

Lemma coords_of_row df city :
  city ∈ map City df →
  ∃ row, row ∈ df ∧ City row = city ∧
    _coords df city = Ok (Latitude row, Longitude row) ∧
    _get_coords df city = (Latitude row, Longitude row).
Proof.
  intros Hin. unfold _coords, _get_coords.
  destruct (filter (λ r, City r = city) df) as [|row rest] eqn:Hf.
  - exfalso. apply list_elem_of_fmap in Hin as (r & Hr & Hin).
    assert (Hr' : r ∈ filter (λ r, City r = city) df)
      by (by apply list_elem_of_filter).
    rewrite Hf in Hr'. by apply elem_of_nil in Hr'.
  - assert (Hrow : row ∈ filter (λ r, City r = city) df) by (rewrite Hf; by left).
    apply list_elem_of_filter in Hrow as [? ?]. by exists row.
Qed.

(** X23: For a city of the table, [_coords] and [_get_coords] both give the
    coordinates of the first row of that name; for any other city
    [_coords] raises a [ValueError] while [_get_coords] answers
    [(0.0, 0.0)]. *)
Theorem coords_lookup df city :
  if decide (city ∈ map City df) then
    ∃ row, first_row df city = Ok row ∧
      _coords df city = Ok (Latitude row, Longitude row) ∧
      _get_coords df city = (Latitude row, Longitude row)
  else
    _coords df city
      = Raise (ValueError (String.append "City not found in DataFrame: " city)) ∧
    _get_coords df city = (Fin 0, Fin 0).
Proof.
  unfold _coords, _get_coords, first_row.
  destruct (decide (city ∈ map City df)) as [Hin|Hout].
  - destruct (coords_of_row df city Hin) as (row & _ & _ & Hc & Hg).
    unfold _coords, _get_coords in Hc, Hg.
    destruct (filter (λ r, City r = city) df) as [|r rest]; [done|].
    exists r. by repeat split.
  - destruct (filter (λ r, City r = city) df) as [|r rest] eqn:Hf; [done|].
    exfalso. apply Hout.
    assert (Hr : r ∈ filter (λ r, City r = city) df) by (rewrite Hf; by left).
    apply list_elem_of_filter in Hr as [<- Hr].
    apply list_elem_of_fmap. by exists r.
Qed.

Lemma built_name_in_table df airlines adj c2i i2c df' i c :
  build_graph df airlines = Ok (adj, c2i, i2c, df') →
  i2c !! i = Some c → c ∈ map City df.
Proof.
  intros (_ & -> & _)%build_graph_Ok. rewrite index_to_city_lookup.
  apply list_elem_of_lookup_2.
Qed.

Lemma clean_coords raw c :
  c ∈ map City (clean_airport_data raw) →
  ∃ lat lon, _coords (clean_airport_data raw) c = Ok (lat, lon) ∧
    _get_coords (clean_airport_data raw) c = (lat, lon) ∧
    isna lat = false ∧ isna lon = false.
Proof.
  intros Hin. destruct (coords_of_row _ _ Hin) as (row & Hrow & _ & Hc & Hg).
  exists (Latitude row), (Longitude row). do 2 (split; [done|]).
  pose proof (clean_has_coords raw) as HF. rewrite Forall_forall in HF.
  apply (HF row Hrow).
Qed.

(** X24: A route found on the graph of a cleaned table names only cities, in
    its city sequence and at both ends of each leg, for which [_coords]
    raises nothing and returns two coordinates that are not NaN (the same
    as [_get_coords] returns). *)
Theorem route_cities_have_coords raw airlines adj c2i i2c df' fuel source dest
    al total cities legs c :
  build_graph (clean_airport_data raw) airlines = Ok (adj, c2i, i2c, df') →
  dijkstra_airline_aware fuel adj c2i i2c source dest al
    = Ok (Some (total, cities, legs)) →
  c ∈ cities ∨ (∃ leg, leg ∈ legs ∧ (c = leg.1.1 ∨ c = leg.1.2)) →
  ∃ lat lon, _coords (clean_airport_data raw) c = Ok (lat, lon) ∧
    _get_coords (clean_airport_data raw) c = (lat, lon) ∧
    isna lat = false ∧ isna lon = false.
Proof.
  intros Hb Hres Hc. destruct (aware_names _ _ _ _ _ _ _ _ _ _ Hres) as [H1 H2].
  apply clean_coords.
  destruct Hc as [Hc|(leg & Hleg & [->| ->])].
  - destruct (H1 c Hc) as [i Hi]. by eapply built_name_in_table.
  - destruct (H2 leg Hleg) as [[i Hi] _]. by eapply built_name_in_table.
  - destruct (H2 leg Hleg) as [_ [j Hj]]. by eapply built_name_in_table.
Qed.

Lemma route_cities_have_coords_witness :
  ∃ lat lon, _coords (clean_airport_data hub_table) "Doha" = Ok (lat, lon) ∧
    _get_coords (clean_airport_data hub_table) "Doha" = (lat, lon) ∧
    isna lat = false ∧ isna lon = false.
Proof.
  apply (route_cities_have_coords hub_table ["Qatar Airways"] qatar_graph
           (city_to_index_of hub_names) (index_to_city_of hub_names) hub_table
           20 "London" "Dubai" [] (Fin 5580) ["London"; "Doha"; "Dubai"]
           [("London", "Doha", Some "Qatar Airways");
            ("Doha", "Dubai", Some "Qatar Airways")]).
  - vm_compute. reflexivity.
  - vm_compute. reflexivity.
  - left. apply (bool_decide_unpack _). vm_compute. exact I.
Defined.


End MapFacts.
